(** * blobstash: the versioned key-value store (package vkv)

    A shallow embedding of [vkv/vkv.go]: the binary key codec
    ([encodeKey], [decodeKey], [encodeMeta]), the 32-bit counters
    ([putUint32], [getUint32], [incrUint32]) and the four public
    operations [Put], [Get], [Versions] and [Keys], over a model of the
    ordered key-value backend (github.com/cznic/kv) they are written
    against.

    Conventions.
    - A Go [string] and a Go [[]byte] are both finite byte sequences;
      [[]byte(s)] and [string(b)] copy the bytes unchanged, so both are
      [list byte] here.
    - Go's [int] is the 64-bit signed integer of the usual targets, a [Z]
      in the range of [is_int]; [uint32(x)] is [x mod 2^32].
    - The backend is an ordered map from raw keys to values, kept as an
      association list sorted by [bytes.Compare]; each backend call may
      fail, which a schedule of faults decides. *)

From Stdlib Require Import ZArith List Bool Lia Sorted.
From Stdlib Require Import Strings.Byte.
Import ListNotations.

Local Open Scope Z_scope.

(** ** Bytes *)

Definition bytes := list byte.

Definition Z_of_byte (b : byte) : Z := Z.of_N (Byte.to_N b).

(** Go's conversion [byte(x)] of an unsigned integer: the low 8 bits. *)
Definition byte_of_Z (z : Z) : byte :=
  match Byte.of_N (Z.to_N (z mod 256)) with
  | Some b => b
  | None => x00
  end.

(** [bytes.Compare]: lexicographic, a proper prefix sorts first. *)
Fixpoint bytes_compare (a b : bytes) : comparison :=
  match a, b with
  | [], [] => Eq
  | [], _ :: _ => Lt
  | _ :: _, [] => Gt
  | x :: a', y :: b' =>
      match Z_of_byte x ?= Z_of_byte y with
      | Eq => bytes_compare a' b'
      | c => c
      end
  end.

Definition bytes_ltb (a b : bytes) : bool :=
  match bytes_compare a b with Lt => true | _ => false end.

Definition bytes_gtb (a b : bytes) : bool :=
  match bytes_compare a b with Gt => true | _ => false end.

Definition bytes_lt (a b : bytes) : Prop := bytes_compare a b = Lt.
Definition bytes_le (a b : bytes) : Prop := bytes_compare a b <> Gt.

(** ** Integers *)

Definition is_int (z : Z) : Prop := - 2 ^ 63 <= z < 2 ^ 63.
Definition maxInt : Z := 2 ^ 63 - 1.

Definition uint32 (z : Z) : Z := z mod 2 ^ 32.

(** [binary.LittleEndian.PutUint32] and [binary.BigEndian.PutUint32]
    on a 4-byte buffer. *)
Definition le_PutUint32 (v : Z) : bytes :=
  [ byte_of_Z v; byte_of_Z (Z.shiftr v 8);
    byte_of_Z (Z.shiftr v 16); byte_of_Z (Z.shiftr v 24) ].

Definition be_PutUint32 (v : Z) : bytes :=
  [ byte_of_Z (Z.shiftr v 24); byte_of_Z (Z.shiftr v 16);
    byte_of_Z (Z.shiftr v 8); byte_of_Z v ].

(** [binary.LittleEndian.Uint32] and [binary.BigEndian.Uint32]: they read
    the first four bytes and panic ([None]) on a shorter slice. *)
Definition le_Uint32 (b : bytes) : option Z :=
  match b with
  | b0 :: b1 :: b2 :: b3 :: _ =>
      Some (Z.lor (Z.lor (Z.lor (Z_of_byte b0) (Z.shiftl (Z_of_byte b1) 8))
                         (Z.shiftl (Z_of_byte b2) 16))
                  (Z.shiftl (Z_of_byte b3) 24))
  | _ => None
  end.

Definition be_Uint32 (b : bytes) : option Z :=
  match b with
  | b0 :: b1 :: b2 :: b3 :: _ =>
      Some (Z.lor (Z.lor (Z.lor (Z_of_byte b3) (Z.shiftl (Z_of_byte b2) 8))
                         (Z.shiftl (Z_of_byte b1) 16))
                  (Z.shiftl (Z_of_byte b0) 24))
  | _ => None
  end.

(** ** Raw keys *)

(** The namespaces of raw keys ([iota] constants). *)
Definition Empty : byte := x00.
Definition Meta : byte := x01.
Definition KvKeyIndex : byte := x02.
Definition KvItem : byte := x03.
Definition KvVersionCnt : byte := x04.
Definition KvVersionMin : byte := x05.
Definition KvVersionMax : byte := x06.

Definition len (b : bytes) : Z := Z.of_nat (length b).

(** [encodeKey]: the raw key of the item [(key, index)]. *)
Definition encodeKey (key : bytes) (index : Z) : bytes :=
  let indexbyte := be_PutUint32 (uint32 index) in
  KvItem :: le_PutUint32 (uint32 (len key)) ++ key ++ indexbyte.

(** A Go slice expression [b[lo:hi]]; out of range it panics. *)
Definition slice (b : bytes) (lo hi : Z) : option bytes :=
  if (0 <=? lo) && (lo <=? hi) && (hi <=? len b)
  then Some (firstn (Z.to_nat (hi - lo)) (skipn (Z.to_nat lo) b))
  else None.

(** [decodeKey]: the user key and the index of a raw item key. *)
Definition decodeKey (key : bytes) : option (bytes * Z) :=
  match slice key 1 5 with
  | None => None
  | Some lenbytes =>
      match le_Uint32 lenbytes with
      | None => None
      | Some klen =>
          match slice key (len key - 4) (len key) with
          | None => None
          | Some tail =>
              match be_Uint32 tail with
              | None => None
              | Some index =>
                  match slice key 5 (5 + klen) with
                  | None => None
                  | Some member => Some (member, index)
                  end
              end
          end
      end
  end.

(** [encodeMeta]: a raw key in the namespace [keyByte]. *)
Definition encodeMeta (keyByte : byte) (key : bytes) : bytes :=
  keyByte :: key.

(** ** The ordered backend *)

(** Modelled from the spec: the ordered key-value backend
    (github.com/cznic/kv, a dependency whose source is not part of the
    repository), "a single ordered key-value backend exposing [get(k)],
    [set(k, v)], [seek(k) -> cursor], [cursor.next() -> (k, v) | EOF]".
    Its content is the list of raw keys with their values, ascending by
    [bytes_compare], one entry per key. *)
Definition store := list (bytes * bytes).

Fixpoint store_get (k : bytes) (s : store) : option bytes :=
  match s with
  | [] => None
  | (k', v') :: s' =>
      match bytes_compare k k' with
      | Eq => Some v'
      | Lt => None
      | Gt => store_get k s'
      end
  end.

Fixpoint store_set (k v : bytes) (s : store) : store :=
  match s with
  | [] => [(k, v)]
  | (k', v') :: s' =>
      match bytes_compare k k' with
      | Eq => (k, v) :: s'
      | Lt => (k, v) :: (k', v') :: s'
      | Gt => (k', v') :: store_set k v s'
      end
  end.

(** The entries whose key is greater than or equal to [k], in order: what
    an enumerator positioned by [Seek k] will yield. *)
Fixpoint store_seek (k : bytes) (s : store) : store :=
  match s with
  | [] => []
  | (k', v') :: s' =>
      if bytes_ltb k' k then store_seek k s' else (k', v') :: s'
  end.

(** Errors are the backend's: the call that failed and its key. *)
Inductive backend_op := OpGet | OpSet | OpSeek.

Inductive error := BackendError (op : backend_op) (key : bytes).

(** The result of a call: a value, an error returned to the caller, or a
    run-time panic (an out-of-range slice). *)
Inductive outcome (A : Type) :=
| Ok (a : A)
| Err (e : error)
| Panic.
Arguments Ok {A} a.
Arguments Err {A} e.
Arguments Panic {A}.

(** A database handle: the content and the faults still to come, one
    flag per backend call ([true]: that call fails); no flag left means
    no more failures. *)
Record DB := mkDB { db_store : store; db_faults : list bool }.

Definition M (A : Type) := DB -> outcome A * DB.

Definition ret {A} (a : A) : M A := fun d => (Ok a, d).

Definition bind {A B} (m : M A) (f : A -> M B) : M B :=
  fun d =>
    match m d with
    | (Ok a, d') => f a d'
    | (Err e, d') => (Err e, d')
    | (Panic, d') => (Panic, d')
    end.

Definition panic {A} : M A := fun d => (Panic, d).

Definition lift {A} (o : outcome A) : M A := fun d => (o, d).

Notation "x <- m ;; k" := (bind m (fun x => k))
  (at level 61, m at next level, right associativity).
Notation "m ;;; k" := (bind m (fun _ => k))
  (at level 61, right associativity).

Definition next_fault (d : DB) : bool * DB :=
  match db_faults d with
  | [] => (false, d)
  | f :: fs => (f, mkDB (db_store d) fs)
  end.

(** [db.db.Get(nil, key)]: [None] is Go's [nil] slice, no such key; a
    stored value is read back as it was written. *)
Definition kv_Get (key : bytes) : M (option bytes) :=
  fun d =>
    let (f, d') := next_fault d in
    if f then (Err (BackendError OpGet key), d')
    else (Ok (store_get key (db_store d')), d').

(** [db.db.Set(key, val)]; a failed call writes nothing. *)
Definition kv_Set (key val : bytes) : M unit :=
  fun d =>
    let (f, d') := next_fault d in
    if f then (Err (BackendError OpSet key), d')
    else (Ok tt, mkDB (store_set key val (db_store d')) (db_faults d')).

(** [db.db.Seek(key)]: the enumerator is the list of entries it will
    yield, a snapshot; [enum.Next()] takes its head and reports [io.EOF]
    on the empty list, its only error. *)
Definition kv_Seek (key : bytes) : M store :=
  fun d =>
    let (f, d') := next_fault d in
    if f then (Err (BackendError OpSeek key), d')
    else (Ok (store_seek key (db_store d')), d').

(** ** Counters *)

(** [putUint32]: store a uint32 as binary data. *)
Definition putUint32 (key : bytes) (value : Z) : M unit :=
  kv_Set key (le_PutUint32 value).

(** [getUint32]: retrieve a binary stored uint32, 0 when there is none. *)
Definition getUint32 (key : bytes) : M Z :=
  data <- kv_Get key ;;
  match data with
  | None => ret 0
  | Some data =>
      match le_Uint32 data with
      | Some v => ret v
      | None => panic
      end
  end.

(** [incrUint32]: increment a binary stored uint32. *)
Definition incrUint32 (key : bytes) (step : Z) : M unit :=
  data <- kv_Get key ;;
  value <- (match data with
            | None => ret 0
            | Some data =>
                match le_Uint32 data with
                | Some v => ret v
                | None => panic
                end
            end) ;;
  kv_Set key (le_PutUint32 (uint32 (value + uint32 step))).

(** ** The public operations *)

Record KeyValue := mkKeyValue {
  Key : bytes;
  Value : bytes;
  Version : Z
}.

(** The fields [Key] and [Versions] of the source, renamed: the names
    are taken by [KeyValue] and by the operation [Versions]. *)
Record KeyValueVersions := mkKeyValueVersions {
  KVKey : bytes;
  Versions_ : list KeyValue
}.

(** [VersionCnt]: the number of versions recorded for [key]. *)
Definition VersionCnt (key : bytes) : M Z :=
  getUint32 (encodeMeta Meta (encodeMeta KvVersionCnt key)).

(** [string(val)] of a value read from the backend: [nil] gives [""]. *)
Definition string_of (val : option bytes) : bytes :=
  match val with Some v => v | None => [] end.

(** [Put]: [now] is what [time.Now().UTC().UnixNano()] returns. *)
Definition Put (now : Z) (key value : bytes) (version : Z) : M KeyValue :=
  let version := if version =? -1 then now else version in
  let bkey := key in
  cmin <- getUint32 (encodeMeta KvVersionMin bkey) ;;
  cmax <- getUint32 (encodeMeta KvVersionMax bkey) ;;
  llen <- (if (cmin =? 0) && (cmax =? 0) then VersionCnt key else ret (-1)) ;;
  (if (llen =? 0) || (cmin >? version)
   then putUint32 (encodeMeta KvVersionMin bkey) (uint32 version)
   else ret tt) ;;;
  (if (cmax =? 0) || (cmax <? version)
   then putUint32 (encodeMeta KvVersionMax bkey) (uint32 version)
   else ret tt) ;;;
  let kmember := encodeKey bkey version in
  cval <- kv_Get kmember ;;
  (match cval with
   | None => incrUint32 (encodeMeta Meta (encodeMeta KvVersionCnt bkey)) 1
   | Some _ => ret tt
   end) ;;;
  kv_Set kmember value ;;;
  kv_Set (encodeMeta KvKeyIndex bkey) [] ;;;
  ret (mkKeyValue key value version).

(** [Get]: the value of [key] at [version], [-1] for the latest. *)
Definition Get (key : bytes) (version : Z) : M KeyValue :=
  let bkey := key in
  version <- (if version =? -1
              then getUint32 (encodeMeta KvVersionMax bkey)
              else ret version) ;;
  val <- kv_Get (encodeKey bkey version) ;;
  ret (mkKeyValue key (string_of val) version).

(** The loop of [Versions]: [enum] is the enumerator, [i] the number of
    rows produced so far, [res] the rows in order. *)
Fixpoint Versions_loop (enum : store) (endBytes : bytes) (limit i : Z)
    (res : list KeyValue) : outcome (list KeyValue) :=
  match enum with
  | [] => Ok res
  | (k, v) :: enum' =>
      if bytes_gtb k endBytes || (negb (limit =? 0) && (i >? limit))
      then Ok res
      else
        match decodeKey k with
        | None => Panic
        | Some (_, index) =>
            Versions_loop enum' endBytes limit (i + 1)
              (res ++ [mkKeyValue [] v index])
        end
  end.

(** [Versions]: the versions of [key] between [start] and [end_]. *)
Definition Versions (key : bytes) (start end_ limit : Z)
  : M KeyValueVersions :=
  let bkey := key in
  enum <- kv_Seek (encodeKey bkey start) ;;
  let endBytes := encodeKey bkey end_ in
  vs <- lift (Versions_loop enum endBytes limit 0 []) ;;
  ret (mkKeyValueVersions key vs).

(** The loop of [Keys]; [k[1:]] panics on an empty raw key. *)
Fixpoint Keys_loop (enum : store) (endBytes : bytes) (limit i : Z)
    (res : list bytes) : outcome (list bytes) :=
  match enum with
  | [] => Ok res
  | (k, _) :: enum' =>
      if bytes_gtb k endBytes || (negb (limit =? 0) && (i >? limit))
      then Ok res
      else
        match k with
        | [] => Panic
        | _ :: suffix =>
            Keys_loop enum' endBytes limit (i + 1) (res ++ [suffix])
        end
  end.

(** [Keys]: the user keys between [start] and [end_]. *)
Definition Keys (start end_ : bytes) (limit : Z) : M (list bytes) :=
  enum <- kv_Seek (encodeMeta KvKeyIndex start) ;;
  let endBytes := encodeMeta KvKeyIndex end_ in
  lift (Keys_loop enum endBytes limit 0 []).

(** ** Runs *)

(** A fresh database on a backend that never fails. *)
Definition fresh : DB := mkDB [] [].

(** One call of [Put] as data: the clock, the key, the value and the
    version the caller passes. *)
Record put_call := mkPut {
  p_now : Z;
  p_key : bytes;
  p_value : bytes;
  p_version : Z
}.

(** The version [Put] works with. *)
Definition p_effective (c : put_call) : Z :=
  if p_version c =? -1 then p_now c else p_version c.

(** Run the calls in order, as long as each one succeeds. *)
Fixpoint run_puts (cs : list put_call) (d : DB) : outcome unit * DB :=
  match cs with
  | [] => (Ok tt, d)
  | c :: cs' =>
      match Put (p_now c) (p_key c) (p_value c) (p_version c) d with
      | (Ok _, d') => run_puts cs' d'
      | (Err e, d') => (Err e, d')
      | (Panic, d') => (Panic, d')
      end
  end.

(** The counters of a key, as [Put] reads them. *)
Definition version_min (key : bytes) : M Z :=
  getUint32 (encodeMeta KvVersionMin key).
Definition version_max (key : bytes) : M Z :=
  getUint32 (encodeMeta KvVersionMax key).

(** * Notions used to state the properties *)

Definition le_value (b0 b1 b2 b3 : byte) : Z :=
  Z_of_byte b0 + Z_of_byte b1 * 2 ^ 8 + Z_of_byte b2 * 2 ^ 16
  + Z_of_byte b3 * 2 ^ 24.

(** The part of an item's raw key that all versions of a key share. *)
Definition item_prefix (key : bytes) : bytes :=
  KvItem :: le_PutUint32 (uint32 (len key)) ++ key.

Definition sorted (s : store) : Prop :=
  StronglySorted bytes_lt (map fst s).

(** The entries an enumeration yields before it passes [hi]. *)
Fixpoint take_le (hi : bytes) (enum : store) : store :=
  match enum with
  | [] => []
  | (k, v) :: enum' =>
      if bytes_gtb k hi then [] else (k, v) :: take_le hi enum'
  end.

(** The entries of a store between two raw keys, bounds included. *)
Definition range (lo hi : bytes) (s : store) : store :=
  take_le hi (store_seek lo s).

(** The value of the counter stored under [key], 0 when there is none. *)
Definition counter (key : bytes) (s : store) : Z :=
  match store_get key s with
  | None => 0
  | Some data => match le_Uint32 data with Some v => v | None => 0 end
  end.

(** Raw keys of the three counter namespaces. *)
Definition counter_key (k : bytes) : Prop :=
  match k with
  | t :: _ => t = Meta \/ t = KvVersionMin \/ t = KvVersionMax
  | [] => False
  end.

(** Every stored counter is a 4-byte buffer. *)
Definition counters_ok (s : store) : Prop :=
  forall k data, counter_key k -> store_get k s = Some data ->
                 length data = 4%nat.

(** The raw keys that one [Put] touches. *)
Definition min_key (key : bytes) : bytes := encodeMeta KvVersionMin key.
Definition max_key (key : bytes) : bytes := encodeMeta KvVersionMax key.
Definition cnt_key (key : bytes) : bytes :=
  encodeMeta Meta (encodeMeta KvVersionCnt key).
Definition index_key (key : bytes) : bytes := encodeMeta KvKeyIndex key.

(** The content of the backend after a [Put] that met no failure, one
    stage per write of the source. *)
Definition put_min (key : bytes) (version : Z) (s : store) : store :=
  let cmin := counter (min_key key) s in
  let cmax := counter (max_key key) s in
  let llen := if (cmin =? 0) && (cmax =? 0)
              then counter (cnt_key key) s else -1 in
  if (llen =? 0) || (cmin >? version)
  then store_set (min_key key) (le_PutUint32 (uint32 version)) s
  else s.

Definition put_max (key : bytes) (version : Z) (s0 s : store) : store :=
  let cmax := counter (max_key key) s0 in
  if (cmax =? 0) || (cmax <? version)
  then store_set (max_key key) (le_PutUint32 (uint32 version)) s
  else s.

Definition put_cnt (key : bytes) (version : Z) (s : store) : store :=
  match store_get (encodeKey key version) s with
  | None =>
      store_set (cnt_key key)
        (le_PutUint32 (uint32 (counter (cnt_key key) s + uint32 1))) s
  | Some _ => s
  end.

Definition put_store (key value : bytes) (version : Z) (s : store) : store :=
  let s1 := put_min key version s in
  let s2 := put_max key version s s1 in
  let s3 := put_cnt key version s2 in
  let s4 := store_set (encodeKey key version) value s3 in
  store_set (index_key key) [] s4.

Definition put_call_store (s : store) (c : put_call) : store :=
  put_store (p_key c) (p_value c) (p_effective c) s.

Definition puts_store (cs : list put_call) (s : store) : store :=
  fold_left put_call_store cs s.

(** What a run has written. *)
Definition written (cs : list put_call) (k : bytes) : Prop :=
  exists c, In c cs /\ p_key c = k.

Definition item_written (cs : list put_call) (k : bytes) (ver : Z) : Prop :=
  exists c, In c cs /\ p_key c = k /\ uint32 (p_effective c) = ver.

(** The shape of a raw key that a run may have stored. *)
Definition raw_key_of (cs : list put_call) (rk : bytes) : Prop :=
  exists k, written cs k /\
    (rk = min_key k \/ rk = max_key k \/ rk = cnt_key k \/ rk = index_key k
     \/ exists ver, item_written cs k ver /\ rk = encodeKey k ver).

Ltac tag_mismatch :=
  unfold min_key, max_key, cnt_key, index_key, encodeKey, encodeMeta,
    Meta, KvKeyIndex, KvItem, KvVersionCnt, KvVersionMin, KvVersionMax in *;
  cbn [app] in *; congruence.

Definition k_ : bytes := ["k"%byte].
Definition v1_ : bytes := ["v"%byte; "1"%byte].
Definition v2_ : bytes := ["v"%byte; "2"%byte].

(** The run of scenario S4: the keys a, b, ba and c, each written once. *)
Definition s4_calls : list put_call :=
  [ mkPut 0 ["a"%byte] v1_ 1; mkPut 0 ["b"%byte] v1_ 1;
    mkPut 0 ["b"%byte; "a"%byte] v1_ 1; mkPut 0 ["c"%byte] v1_ 1 ].

(** A version above 32 bits: [2^32 + 5]. *)
Definition wide_version : Z := 4294967301.

(** Two stores show the same items to every scan of [Versions]. *)
Definition items_agree (s s' : store) : Prop :=
  forall k a b,
    range (encodeKey k a) (encodeKey k b) s'
    = range (encodeKey k a) (encodeKey k b) s.




(** The run used against claim C8: on the fresh store the first nine
    backend calls of [Put] succeed and the tenth, the write of the
    key-existence entry, fails. *)
Definition index_write_fails : DB :=
  mkDB [] [false; false; false; false; false; false; false; false; false;
           true].


(** The version that [Versions] reports for an entry. *)
Definition row_index (e : bytes * bytes) : Z :=
  match decodeKey (fst e) with
  | Some (_, index) => index
  | None => 0
  end.

Definition row_of (e : bytes * bytes) : KeyValue :=
  mkKeyValue [] (snd e) (row_index e).

(** The run of scenario S3: one key, versions 100, 200 and 150. *)
Definition s3_calls : list put_call :=
  [ mkPut 0 k_ v1_ 100; mkPut 0 k_ v2_ 200; mkPut 0 k_ v1_ 150 ].

Definition z_ : bytes := ["z"%byte].

(** The number of rows of a result. *)
Definition len_rows {A} (l : list A) : Z := Z.of_nat (length l).

(** The number of items stored for a key: the entries between its items
    of version 0 and of version [maxInt]. *)
Definition item_count (k : bytes) (s : store) : Z :=
  len_rows (range (encodeKey k 0) (encodeKey k maxInt) s).

(** The invariant of the counters of [k] along a run. *)
Definition counters_bound (cs : list put_call) (k : bytes) : Prop :=
  let s := puts_store cs [] in
  (forall ver, item_written cs k ver ->
     counter (min_key k) s <= ver <= counter (max_key k) s) /\
  counter (cnt_key k) s = item_count k s mod 2 ^ 32.

(** The value of the last call of a run that put [k] at a version with
    the low 32 bits of [ver]. *)
Fixpoint last_put (cs : list put_call) (k : bytes) (ver : Z)
  : option bytes :=
  match cs with
  | [] => None
  | c :: cs' =>
      match last_put cs' k ver with
      | Some v => Some v
      | None =>
          if list_eq_dec byte_eq_dec (p_key c) k
          then if uint32 (p_effective c) =? uint32 ver
               then Some (p_value c) else None
          else None
      end
  end.

(** A computation that never writes. *)
Definition read_only {A} (m : M A) : Prop :=
  forall d, db_store (snd (m d)) = db_store d.



(** The stores the operations keep: sorted, with 4-byte counters. *)
Definition store_ok (s : store) : Prop := counters_ok s /\ sorted s.

(** The databases that calls of [Put] reach from an empty backend,
    whichever backend calls fail. *)
Inductive reach : DB -> Prop :=
| reach_empty (fs : list bool) : reach (mkDB [] fs)
| reach_Put (d : DB) (now : Z) (key value : bytes) (version : Z) :
    reach d -> reach (snd (Put now key value version d))
| reach_faults (d : DB) (fs : list bool) :
    reach d -> reach (mkDB (db_store d) fs).

(** A computation that keeps the store well formed and does not
    panic. *)
Definition steady {A} (m : M A) : Prop :=
  forall d, store_ok (db_store d) ->
            store_ok (db_store (snd (m d))) /\ fst (m d) <> Panic.

(** * Properties *)

(** ** Bytes and their order *)

Lemma Z_of_byte_range (b : byte) : 0 <= Z_of_byte b < 256.
Proof.
  unfold Z_of_byte. pose proof (Byte.to_N_bounded b). lia.
Qed.

Lemma Z_of_byte_inj (a b : byte) : Z_of_byte a = Z_of_byte b -> a = b.
Proof.
  unfold Z_of_byte. intros H. apply N2Z.inj in H.
  pose proof (Byte.of_to_N a) as Ha. rewrite H, Byte.of_to_N in Ha.
  congruence.
Qed.

Lemma Z_of_byte_of_Z (z : Z) : Z_of_byte (byte_of_Z z) = z mod 256.
Proof.
  unfold byte_of_Z, Z_of_byte.
  pose proof (Z.mod_pos_bound z 256 eq_refl) as Hr.
  destruct (Byte.of_N (Z.to_N (z mod 256))) as [b|] eqn:E.
  - apply Byte.to_of_N in E. rewrite E. lia.
  - apply Byte.of_N_None_iff in E. lia.
Qed.

Lemma bytes_compare_refl (a : bytes) : bytes_compare a a = Eq.
Proof.
  induction a as [|x a IH]; simpl; [reflexivity|].
  now rewrite Z.compare_refl.
Qed.

Lemma bytes_compare_eq (a b : bytes) : bytes_compare a b = Eq -> a = b.
Proof.
  revert b. induction a as [|x a IH]; intros [|y b]; simpl; try easy.
  destruct (Z.compare_spec (Z_of_byte x) (Z_of_byte y)) as [E|E|E]; try easy.
  intros H. apply Z_of_byte_inj in E. f_equal; auto.
Qed.

Lemma bytes_compare_antisym (a b : bytes) :
  bytes_compare b a = CompOpp (bytes_compare a b).
Proof.
  revert b. induction a as [|x a IH]; intros [|y b]; simpl; try easy.
  rewrite (Z.compare_antisym (Z_of_byte x) (Z_of_byte y)).
  destruct (Z_of_byte x ?= Z_of_byte y); simpl; auto.
Qed.

Lemma bytes_compare_lt_gt (a b : bytes) :
  bytes_compare a b = Lt <-> bytes_compare b a = Gt.
Proof.
  rewrite (bytes_compare_antisym a b).
  destruct (bytes_compare a b); simpl; split; congruence.
Qed.

Lemma bytes_lt_trans (a b c : bytes) :
  bytes_compare a b = Lt -> bytes_compare b c = Lt -> bytes_compare a c = Lt.
Proof.
  revert b c. induction a as [|x a IH]; intros [|y b] [|z c]; simpl; try easy.
  destruct (Z.compare_spec (Z_of_byte x) (Z_of_byte y)) as [E1|E1|E1];
    destruct (Z.compare_spec (Z_of_byte y) (Z_of_byte z)) as [E2|E2|E2];
    try easy; intros H1 H2.
  - rewrite E1, E2, Z.compare_refl. eauto.
  - rewrite E1. now apply Z.compare_lt_iff in E2 as ->.
  - rewrite <- E2. now apply Z.compare_lt_iff in E1 as ->.
  - assert (E : Z_of_byte x < Z_of_byte z) by lia.
    now apply Z.compare_lt_iff in E as ->.
Qed.

Lemma bytes_compare_app (p a b : bytes) :
  bytes_compare (p ++ a) (p ++ b) = bytes_compare a b.
Proof.
  induction p as [|x p IH]; simpl; [reflexivity|].
  now rewrite Z.compare_refl.
Qed.

Lemma bytes_compare_cons (x : byte) (a b : bytes) :
  bytes_compare (x :: a) (x :: b) = bytes_compare a b.
Proof. apply (bytes_compare_app [x]). Qed.

Lemma bytes_compare_cons_neq (x y : byte) (a b : bytes) :
  x <> y ->
  bytes_compare (x :: a) (y :: b) = (Z_of_byte x ?= Z_of_byte y).
Proof.
  intros Hne. simpl.
  destruct (Z.compare_spec (Z_of_byte x) (Z_of_byte y)) as [E|E|E]; auto.
  now apply Z_of_byte_inj in E.
Qed.

Lemma bytes_ltb_lt (a b : bytes) : bytes_ltb a b = true <-> bytes_lt a b.
Proof.
  unfold bytes_ltb, bytes_lt. destruct (bytes_compare a b); split; congruence.
Qed.

Lemma bytes_gtb_le (a b : bytes) : bytes_gtb a b = false <-> bytes_le a b.
Proof.
  unfold bytes_gtb, bytes_le. destruct (bytes_compare a b); split; congruence.
Qed.

(** ** The 32-bit codecs *)

Lemma lor_shiftl_add (a b n : Z) :
  0 <= n -> 0 <= a < 2 ^ n -> Z.lor a (Z.shiftl b n) = a + b * 2 ^ n.
Proof.
  intros Hn Ha.
  rewrite <- (Z.shiftl_mul_pow2 b n Hn).
  rewrite <- (Z.add_lor_land a (Z.shiftl b n)).
  assert (H0 : Z.land a (Z.shiftl b n) = 0); [|lia].
  apply Z.bits_inj'. intros m Hm.
  rewrite Z.land_spec, Z.bits_0.
  destruct (Z.ltb_spec m n) as [Hlt|Hge].
  - rewrite (Z.shiftl_spec_low b n m Hlt). apply andb_false_r.
  - destruct (Z.eq_dec a 0) as [->|Hnz]; [now rewrite Z.bits_0|].
    rewrite (Z.bits_above_log2 a m); [reflexivity|lia|].
    apply Z.lt_le_trans with n; [|exact Hge].
    apply Z.log2_lt_pow2; lia.
Qed.

Lemma le_Uint32_value (b0 b1 b2 b3 : byte) (rest : bytes) :
  le_Uint32 (b0 :: b1 :: b2 :: b3 :: rest) = Some (le_value b0 b1 b2 b3).
Proof.
  unfold le_Uint32, le_value.
  pose proof (Z_of_byte_range b0). pose proof (Z_of_byte_range b1).
  pose proof (Z_of_byte_range b2). pose proof (Z_of_byte_range b3).
  rewrite (lor_shiftl_add (Z_of_byte b0)) by lia.
  rewrite (lor_shiftl_add (_ + _)) by lia.
  rewrite (lor_shiftl_add (_ + _)) by lia.
  reflexivity.
Qed.

Lemma be_Uint32_value (b0 b1 b2 b3 : byte) (rest : bytes) :
  be_Uint32 (b0 :: b1 :: b2 :: b3 :: rest) = Some (le_value b3 b2 b1 b0).
Proof.
  unfold be_Uint32, le_value.
  pose proof (Z_of_byte_range b0). pose proof (Z_of_byte_range b1).
  pose proof (Z_of_byte_range b2). pose proof (Z_of_byte_range b3).
  rewrite (lor_shiftl_add (Z_of_byte b3)) by lia.
  rewrite (lor_shiftl_add (_ + _)) by lia.
  rewrite (lor_shiftl_add (_ + _)) by lia.
  reflexivity.
Qed.

Lemma le_value_range (b0 b1 b2 b3 : byte) :
  0 <= le_value b0 b1 b2 b3 < 2 ^ 32.
Proof.
  unfold le_value.
  pose proof (Z_of_byte_range b0). pose proof (Z_of_byte_range b1).
  pose proof (Z_of_byte_range b2). pose proof (Z_of_byte_range b3).
  lia.
Qed.

Lemma le_value_put (v : Z) :
  le_value (byte_of_Z v) (byte_of_Z (Z.shiftr v 8))
           (byte_of_Z (Z.shiftr v 16)) (byte_of_Z (Z.shiftr v 24))
  = v mod 2 ^ 32.
Proof.
  unfold le_value. rewrite !Z_of_byte_of_Z.
  rewrite !Z.shiftr_div_pow2 by lia.
  change (2 ^ 8) with 256. change (2 ^ 16) with 65536.
  change (2 ^ 24) with 16777216. change (2 ^ 32) with 4294967296.
  Z.to_euclidean_division_equations. lia.
Qed.

Lemma le_Uint32_Put (v : Z) (rest : bytes) :
  le_Uint32 (le_PutUint32 v ++ rest) = Some (uint32 v).
Proof.
  unfold le_PutUint32. simpl app. rewrite le_Uint32_value.
  now rewrite le_value_put.
Qed.

Lemma be_Uint32_Put (v : Z) (rest : bytes) :
  be_Uint32 (be_PutUint32 v ++ rest) = Some (uint32 v).
Proof.
  unfold be_PutUint32. simpl app. rewrite be_Uint32_value.
  now rewrite le_value_put.
Qed.

Lemma uint32_range (v : Z) : 0 <= uint32 v < 2 ^ 32.
Proof. unfold uint32. apply Z.mod_pos_bound. lia. Qed.

Lemma uint32_small (v : Z) : 0 <= v < 2 ^ 32 -> uint32 v = v.
Proof. unfold uint32. intros H. now apply Z.mod_small. Qed.

Lemma uint32_idem (v : Z) : uint32 (uint32 v) = uint32 v.
Proof. apply uint32_small, uint32_range. Qed.

(** Big-endian buffers compare as the numbers they hold. *)
Lemma be_compare_value (a0 a1 a2 a3 b0 b1 b2 b3 : byte) :
  bytes_compare [a0; a1; a2; a3] [b0; b1; b2; b3]
  = (le_value a3 a2 a1 a0 ?= le_value b3 b2 b1 b0).
Proof.
  unfold le_value. simpl.
  pose proof (Z_of_byte_range a0). pose proof (Z_of_byte_range a1).
  pose proof (Z_of_byte_range a2). pose proof (Z_of_byte_range a3).
  pose proof (Z_of_byte_range b0). pose proof (Z_of_byte_range b1).
  pose proof (Z_of_byte_range b2). pose proof (Z_of_byte_range b3).
  symmetry.
  destruct (Z.compare_spec (Z_of_byte a0) (Z_of_byte b0));
    [destruct (Z.compare_spec (Z_of_byte a1) (Z_of_byte b1));
      [destruct (Z.compare_spec (Z_of_byte a2) (Z_of_byte b2));
        [destruct (Z.compare_spec (Z_of_byte a3) (Z_of_byte b3))|..]|..]|..];
    first [apply Z.compare_eq_iff | apply Z.compare_lt_iff
          | apply Z.compare_gt_iff]; lia.
Qed.

Lemma be_PutUint32_compare (a b : Z) :
  bytes_compare (be_PutUint32 a) (be_PutUint32 b) = (uint32 a ?= uint32 b).
Proof.
  unfold be_PutUint32. rewrite be_compare_value, !le_value_put. reflexivity.
Qed.

Lemma le_PutUint32_length (v : Z) : length (le_PutUint32 v) = 4%nat.
Proof. reflexivity. Qed.

Lemma be_PutUint32_length (v : Z) : length (be_PutUint32 v) = 4%nat.
Proof. reflexivity. Qed.

Lemma le_PutUint32_inj (a b : Z) :
  le_PutUint32 a = le_PutUint32 b -> uint32 a = uint32 b.
Proof.
  intros H. pose proof (le_Uint32_Put a []) as Ha.
  rewrite H, le_Uint32_Put in Ha. congruence.
Qed.

Lemma be_PutUint32_inj (a b : Z) :
  be_PutUint32 a = be_PutUint32 b -> uint32 a = uint32 b.
Proof.
  intros H. pose proof (be_Uint32_Put a []) as Ha.
  rewrite H, be_Uint32_Put in Ha. congruence.
Qed.

(** ** The key codec *)

Lemma len_app (a b : bytes) : len (a ++ b) = len a + len b.
Proof. unfold len. rewrite length_app. lia. Qed.

Lemma len_nonneg (a : bytes) : 0 <= len a.
Proof. unfold len. lia. Qed.

Lemma slice_app (a b c : bytes) :
  slice (a ++ b ++ c) (len a) (len a + len b) = Some b.
Proof.
  unfold slice. rewrite !len_app.
  pose proof (len_nonneg a). pose proof (len_nonneg b).
  pose proof (len_nonneg c).
  destruct ((0 <=? len a) && (len a <=? len a + len b)
            && (len a + len b <=? len a + (len b + len c))) eqn:E.
  - f_equal. unfold len.
    replace (Z.to_nat (Z.of_nat (length a))) with (length a + 0)%nat by lia.
    rewrite skipn_app, skipn_all2 by lia. simpl app.
    replace (length a + 0 - length a)%nat with 0%nat by lia. simpl skipn.
    replace (Z.to_nat (Z.of_nat (length a) + Z.of_nat (length b)
                       - Z.of_nat (length a))) with (length b + 0)%nat by lia.
    rewrite firstn_app_2. simpl. apply app_nil_r.
  - rewrite !andb_false_iff, !Z.leb_gt in E. lia.
Qed.

Lemma encodeKey_prefix (key : bytes) (index : Z) :
  encodeKey key index = item_prefix key ++ be_PutUint32 (uint32 index).
Proof.
  reflexivity.
Qed.

(** Decoding an encoded key gives the user key back, and the version
    reduced to its low 32 bits. *)
Lemma decodeKey_encodeKey (key : bytes) (index : Z) :
  len key < 2 ^ 32 ->
  decodeKey (encodeKey key index) = Some (key, uint32 index).
Proof.
  intros Hlen. unfold decodeKey.
  assert (H1 : slice (encodeKey key index) 1 5
               = Some (le_PutUint32 (uint32 (len key)))).
  { apply (slice_app [KvItem] (le_PutUint32 (uint32 (len key)))
                     (key ++ be_PutUint32 (uint32 index))). }
  rewrite H1.
  rewrite <- (app_nil_r (le_PutUint32 _)), le_Uint32_Put, uint32_idem.
  rewrite (uint32_small (len key)) by (pose proof (len_nonneg key); lia).
  assert (H2 : slice (encodeKey key index)
                 (len (encodeKey key index) - 4) (len (encodeKey key index))
               = Some (be_PutUint32 (uint32 index))).
  { rewrite encodeKey_prefix, len_app.
    replace (len (be_PutUint32 (uint32 index))) with 4 by reflexivity.
    replace (len (item_prefix key) + 4 - 4) with (len (item_prefix key))
      by lia.
    pose proof (slice_app (item_prefix key)
                  (be_PutUint32 (uint32 index)) []) as H.
    now rewrite app_nil_r in H. }
  rewrite H2.
  rewrite <- (app_nil_r (be_PutUint32 _)), be_Uint32_Put, uint32_idem.
  assert (H3 : slice (encodeKey key index) 5 (5 + len key) = Some key).
  { apply (slice_app (KvItem :: le_PutUint32 (uint32 (len key))) key
                     (be_PutUint32 (uint32 index))). }
  now rewrite H3.
Qed.

Lemma encodeKey_inj (k k' : bytes) (v v' : Z) :
  len k < 2 ^ 32 -> len k' < 2 ^ 32 ->
  encodeKey k v = encodeKey k' v' -> k = k' /\ uint32 v = uint32 v'.
Proof.
  intros Hk Hk' H.
  pose proof (decodeKey_encodeKey k v Hk) as E.
  rewrite H, decodeKey_encodeKey in E by assumption.
  split; congruence.
Qed.

Lemma encodeKey_uint32 (k : bytes) (v : Z) :
  encodeKey k (uint32 v) = encodeKey k v.
Proof. unfold encodeKey. now rewrite uint32_idem. Qed.

(** Items of one key sort by the low 32 bits of their version. *)
Lemma encodeKey_compare (k : bytes) (a b : Z) :
  bytes_compare (encodeKey k a) (encodeKey k b) = (uint32 a ?= uint32 b).
Proof.
  rewrite !encodeKey_prefix, bytes_compare_app, be_PutUint32_compare.
  now rewrite !uint32_idem.
Qed.

(** A raw key between two keys that share a prefix has that prefix. *)
Lemma sandwich_prefix (p x y r : bytes) :
  bytes_le (p ++ x) r -> bytes_le r (p ++ y) -> exists s, r = p ++ s.
Proof.
  unfold bytes_le. revert r.
  induction p as [|c p IH]; intros r Hlo Hhi.
  - now exists r.
  - destruct r as [|d r]; [simpl in Hlo; congruence|].
    simpl in Hlo, Hhi.
    destruct (Z.compare_spec (Z_of_byte c) (Z_of_byte d)) as [E|E|E];
      try congruence.
    + rewrite E, Z.compare_refl in Hhi. apply Z_of_byte_inj in E. subst d.
      destruct (IH r Hlo Hhi) as [s ->]. now exists s.
    + apply Z.compare_gt_iff in E. rewrite E in Hhi. congruence.
Qed.

Lemma app_eq_len {A} (a a' b b' : list A) :
  length a = length a' -> a ++ b = a' ++ b' -> a = a' /\ b = b'.
Proof.
  revert a'. induction a as [|x a IH]; intros [|x' a']; simpl; try easy.
  intros Hl H. injection Hl as Hl. injection H as -> H.
  destruct (IH a' Hl H) as [-> ->]. auto.
Qed.

(** An item key that lies between two items of [k] is an item of [k]. *)
Lemma item_in_range (k k' : bytes) (lo hi v' : Z) :
  len k < 2 ^ 32 -> len k' < 2 ^ 32 ->
  bytes_le (encodeKey k lo) (encodeKey k' v') ->
  bytes_le (encodeKey k' v') (encodeKey k hi) ->
  k' = k.
Proof.
  intros Hk Hk' Hlo Hhi.
  rewrite (encodeKey_prefix k lo) in Hlo. rewrite (encodeKey_prefix k hi) in Hhi.
  destruct (sandwich_prefix _ _ _ _ Hlo Hhi) as [s Hs].
  rewrite encodeKey_prefix in Hs.
  change (item_prefix k') with
    (KvItem :: (le_PutUint32 (uint32 (len k')) ++ k')) in Hs.
  change (item_prefix k) with
    (KvItem :: (le_PutUint32 (uint32 (len k)) ++ k)) in Hs.
  rewrite <- !app_comm_cons in Hs. injection Hs as B0 B1 B2 B3 Hs.
  assert (Hl : le_PutUint32 (uint32 (len k')) = le_PutUint32 (uint32 (len k)))
    by (unfold le_PutUint32; congruence).
  apply le_PutUint32_inj in Hl. rewrite !uint32_idem in Hl.
  rewrite !uint32_small in Hl
    by (pose proof (len_nonneg k); pose proof (len_nonneg k'); lia).
  apply app_eq_len in Hs; [tauto|]. unfold len in Hl. lia.
Qed.

(** ** The ordered store *)

Lemma store_set_keys (k v x : bytes) (s : store) :
  In x (map fst (store_set k v s)) -> x = k \/ In x (map fst s).
Proof.
  induction s as [|[k' v'] s IH]; simpl.
  - intros [<-|[]]. auto.
  - destruct (bytes_compare k k') eqn:E; simpl.
    + apply bytes_compare_eq in E. subst k'. intros [<-|H]; auto.
    + intros [<-|[<-|H]]; auto.
    + intros [<-|H]; auto. destruct (IH H); auto.
Qed.

Lemma store_set_sorted (k v : bytes) (s : store) :
  sorted s -> sorted (store_set k v s).
Proof.
  unfold sorted. induction s as [|[k' v'] s IH]; simpl; intros Hs.
  - constructor; constructor.
  - inversion Hs as [|? ? Hs' Hall]; subst.
    destruct (bytes_compare k k') eqn:E; simpl.
    + apply bytes_compare_eq in E. subst k'. now constructor.
    + constructor; [exact Hs|]. constructor; [exact E|].
      eapply Forall_impl; [|exact Hall].
      intros x Hx. eapply bytes_lt_trans; eauto.
    + constructor; [auto|]. apply Forall_forall. intros x Hx.
      apply store_set_keys in Hx. destruct Hx as [->|Hx].
      * now apply bytes_compare_lt_gt.
      * rewrite Forall_forall in Hall. auto.
Qed.

Lemma store_get_set_same (k v : bytes) (s : store) :
  store_get k (store_set k v s) = Some v.
Proof.
  induction s as [|[k' v'] s IH]; simpl.
  - now rewrite bytes_compare_refl.
  - destruct (bytes_compare k k') eqn:E; simpl.
    + now rewrite bytes_compare_refl.
    + now rewrite bytes_compare_refl.
    + now rewrite E.
Qed.

Lemma store_get_set_other (k k' v : bytes) (s : store) :
  k' <> k -> store_get k' (store_set k v s) = store_get k' s.
Proof.
  intros Hne. induction s as [|[k1 v1] s IH]; simpl.
  - destruct (bytes_compare k' k) eqn:E; auto.
    now apply bytes_compare_eq in E.
  - destruct (bytes_compare k k1) eqn:E; simpl.
    + apply bytes_compare_eq in E. subst k1.
      destruct (bytes_compare k' k) eqn:E'; auto.
      now apply bytes_compare_eq in E'.
    + destruct (bytes_compare k' k) eqn:E'.
      * now apply bytes_compare_eq in E'.
      * now rewrite (bytes_lt_trans _ _ _ E' E).
      * reflexivity.
    + destruct (bytes_compare k' k1); auto.
Qed.

Lemma store_get_In (k v : bytes) (s : store) :
  store_get k s = Some v -> In (k, v) s.
Proof.
  induction s as [|[k' v'] s IH]; simpl; [easy|].
  destruct (bytes_compare k k') eqn:E; try easy.
  - apply bytes_compare_eq in E. subst k'. intros [= ->]. auto.
  - auto.
Qed.

Lemma In_store_get (k v : bytes) (s : store) :
  sorted s -> In (k, v) s -> store_get k s = Some v.
Proof.
  unfold sorted. induction s as [|[k' v'] s IH]; simpl; [easy|].
  intros Hs [H|H]; inversion Hs as [|? ? Hs' Hall]; subst.
  - injection H as -> ->. now rewrite bytes_compare_refl.
  - rewrite Forall_forall in Hall.
    assert (Hlt : bytes_lt k' k) by (apply Hall, (in_map fst _ _ H)).
    apply bytes_compare_lt_gt in Hlt. rewrite Hlt. auto.
Qed.

Lemma store_seek_incl (k : bytes) (s : store) (e : bytes * bytes) :
  In e (store_seek k s) -> In e s.
Proof.
  induction s as [|[k' v'] s IH]; simpl; [easy|].
  destruct (bytes_ltb k' k); simpl; auto.
Qed.

Lemma store_seek_In (k : bytes) (s : store) (e : bytes * bytes) :
  sorted s ->
  (In e (store_seek k s) <-> In e s /\ bytes_le k (fst e)).
Proof.
  unfold sorted, bytes_le.
  induction s as [|[k' v'] s IH]; simpl; intros Hs; [tauto|].
  inversion Hs as [|? ? Hs' Hall]; subst. rewrite Forall_forall in Hall.
  destruct (bytes_ltb k' k) eqn:E.
  - apply bytes_ltb_lt in E. rewrite (IH Hs'). split; [tauto|].
    intros [[<-|H] Hle]; [|tauto]. simpl in Hle.
    apply bytes_compare_lt_gt in E. contradiction.
  - assert (Hk : bytes_compare k k' <> Gt).
    { intros H. apply bytes_compare_lt_gt in H.
      apply bytes_ltb_lt in H. congruence. }
    simpl. split; [intros [<-|H]|tauto]; simpl; [tauto|].
    split; [tauto|]. intros Hgt. apply bytes_compare_lt_gt in Hgt.
    assert (Hlt : bytes_lt k' (fst e)) by (apply Hall, in_map, H).
    apply Hk, bytes_compare_lt_gt. eapply bytes_lt_trans; eauto.
Qed.

Lemma store_seek_sorted (k : bytes) (s : store) :
  sorted s -> sorted (store_seek k s).
Proof.
  unfold sorted. induction s as [|[k' v'] s IH]; simpl; intros Hs; [auto|].
  inversion Hs; subst. destruct (bytes_ltb k' k); auto.
Qed.

Lemma take_le_In (hi : bytes) (s : store) (e : bytes * bytes) :
  sorted s ->
  (In e (take_le hi s) <-> In e s /\ bytes_le (fst e) hi).
Proof.
  unfold sorted.
  induction s as [|[k' v'] s IH]; simpl; intros Hs; [tauto|].
  inversion Hs as [|? ? Hs' Hall]; subst. rewrite Forall_forall in Hall.
  destruct (bytes_gtb k' hi) eqn:E.
  - split; [easy|]. intros [[<-|H] Hle].
    + apply bytes_gtb_le in Hle. simpl in Hle. congruence.
    + assert (Hlt : bytes_lt k' (fst e)) by (apply Hall, in_map, H).
      unfold bytes_gtb in E. destruct (bytes_compare k' hi) eqn:E'; try easy.
      apply bytes_compare_lt_gt in E'. apply Hle, bytes_compare_lt_gt.
      eapply bytes_lt_trans; eauto.
  - apply bytes_gtb_le in E. simpl. rewrite (IH Hs').
    split; [intros [<-|H]|]; simpl; tauto.
Qed.

Lemma take_le_sorted (hi : bytes) (s : store) :
  sorted s -> sorted (take_le hi s).
Proof.
  unfold sorted. induction s as [|[k' v'] s IH]; simpl; intros Hs; [auto|].
  inversion Hs as [|? ? Hs' Hall]; subst.
  destruct (bytes_gtb k' hi); simpl; constructor; auto.
  rewrite Forall_forall in *. intros x Hx. apply Hall.
  apply in_map_iff in Hx. destruct Hx as [e [<- He]].
  apply in_map. clear - He. induction s as [|[k1 v1] s IHs]; simpl in *; [easy|].
  destruct (bytes_gtb k1 hi); simpl in *; [easy|]. tauto.
Qed.

Lemma range_In (lo hi : bytes) (s : store) (e : bytes * bytes) :
  sorted s ->
  (In e (range lo hi s) <-> In e s /\ bytes_le lo (fst e) /\ bytes_le (fst e) hi).
Proof.
  intros Hs. unfold range.
  rewrite take_le_In by now apply store_seek_sorted.
  rewrite store_seek_In by assumption. tauto.
Qed.

Lemma range_sorted (lo hi : bytes) (s : store) :
  sorted s -> sorted (range lo hi s).
Proof. intros Hs. now apply take_le_sorted, store_seek_sorted. Qed.

(** ** The operations on a backend that does not fail *)

Lemma bind_ok {A B} (m : M A) (f : A -> M B) (d d' : DB) (a : A) :
  m d = (Ok a, d') -> bind m f d = f a d'.
Proof. unfold bind. now intros ->. Qed.

Lemma kv_Get_ok (key : bytes) (s : store) :
  kv_Get key (mkDB s []) = (Ok (store_get key s), mkDB s []).
Proof. reflexivity. Qed.

Lemma kv_Set_ok (key val : bytes) (s : store) :
  kv_Set key val (mkDB s []) = (Ok tt, mkDB (store_set key val s) []).
Proof. reflexivity. Qed.

Lemma kv_Seek_ok (key : bytes) (s : store) :
  kv_Seek key (mkDB s []) = (Ok (store_seek key s), mkDB s []).
Proof. reflexivity. Qed.

Lemma le_Uint32_length4 (data : bytes) :
  length data = 4%nat -> exists v, le_Uint32 data = Some v /\ 0 <= v < 2 ^ 32.
Proof.
  destruct data as [|b0 [|b1 [|b2 [|b3 [|b4 rest]]]]]; cbn [length];
    try discriminate.
  intros _. eexists. split; [apply le_Uint32_value|apply le_value_range].
Qed.

Lemma counter_range (key : bytes) (s : store) :
  0 <= counter key s < 2 ^ 32.
Proof.
  unfold counter. destruct (store_get key s) as [data|]; [|lia].
  destruct (le_Uint32 data) as [v|] eqn:E; [|lia].
  destruct data as [|b0 [|b1 [|b2 [|b3 rest]]]]; try discriminate.
  rewrite le_Uint32_value in E. injection E as <-. apply le_value_range.
Qed.

Lemma getUint32_ok (key : bytes) (s : store) :
  counters_ok s -> counter_key key ->
  getUint32 key (mkDB s []) = (Ok (counter key s), mkDB s []).
Proof.
  intros Hc Hk. unfold getUint32, counter.
  rewrite (bind_ok _ _ _ _ _ (kv_Get_ok key s)).
  destruct (store_get key s) as [data|] eqn:E; [|reflexivity].
  destruct (le_Uint32_length4 data (Hc key data Hk E)) as [v [-> _]].
  reflexivity.
Qed.

Lemma putUint32_ok (key : bytes) (value : Z) (s : store) :
  putUint32 key value (mkDB s [])
  = (Ok tt, mkDB (store_set key (le_PutUint32 value) s) []).
Proof. reflexivity. Qed.

Lemma incrUint32_ok (key : bytes) (step : Z) (s : store) :
  counters_ok s -> counter_key key ->
  incrUint32 key step (mkDB s [])
  = (Ok tt, mkDB (store_set key
                    (le_PutUint32 (uint32 (counter key s + uint32 step))) s)
                 []).
Proof.
  intros Hc Hk. unfold incrUint32, counter.
  rewrite (bind_ok _ _ _ _ _ (kv_Get_ok key s)).
  destruct (store_get key s) as [data|] eqn:E; [|reflexivity].
  destruct (le_Uint32_length4 data (Hc key data Hk E)) as [v [-> _]].
  reflexivity.
Qed.

Lemma counters_ok_set (k v : bytes) (s : store) :
  counters_ok s -> (counter_key k -> length v = 4%nat) ->
  counters_ok (store_set k v s).
Proof.
  intros Hc Hv k' data Hk' Hg.
  destruct (list_eq_dec byte_eq_dec k' k) as [->|Hne].
  - rewrite store_get_set_same in Hg. injection Hg as <-. auto.
  - rewrite store_get_set_other in Hg by assumption. eauto.
Qed.

Lemma counters_ok_put_min key version s :
  counters_ok s -> counters_ok (put_min key version s).
Proof.
  intros Hc. unfold put_min.
  destruct ((_ =? 0) || (_ >? version)); auto.
  now apply counters_ok_set.
Qed.

Lemma counters_ok_put_max key version s0 s :
  counters_ok s -> counters_ok (put_max key version s0 s).
Proof.
  intros Hc. unfold put_max.
  destruct ((_ =? 0) || (_ <? version)); auto.
  now apply counters_ok_set.
Qed.

Lemma counters_ok_put_cnt key version s :
  counters_ok s -> counters_ok (put_cnt key version s).
Proof.
  intros Hc. unfold put_cnt.
  destruct (store_get (encodeKey key version) s); auto.
  now apply counters_ok_set.
Qed.

Lemma counters_ok_put_store key value version s :
  counters_ok s -> counters_ok (put_store key value version s).
Proof.
  intros Hc. unfold put_store.
  apply counters_ok_set; [|simpl; unfold Meta, KvVersionMin, KvVersionMax, KvKeyIndex; intuition discriminate].
  apply counters_ok_set;
    [|simpl; unfold Meta, KvVersionMin, KvVersionMax, KvItem; intuition discriminate].
  now apply counters_ok_put_cnt, counters_ok_put_max, counters_ok_put_min.
Qed.

Lemma counter_set_other (k k' v : bytes) (s : store) :
  k' <> k -> counter k' (store_set k v s) = counter k' s.
Proof.
  intros Hne. unfold counter. now rewrite store_get_set_other.
Qed.

Lemma counter_set_same (k : bytes) (v : Z) (s : store) :
  counter k (store_set k (le_PutUint32 v) s) = uint32 v.
Proof.
  unfold counter. rewrite store_get_set_same.
  rewrite <- (app_nil_r (le_PutUint32 v)). now rewrite le_Uint32_Put.
Qed.

(** On a backend that does not fail, [Put] succeeds, returns the triple
    it was given and leaves the content [put_store]. *)
Lemma Put_ok (now : Z) (key value : bytes) (version : Z) (s : store) :
  counters_ok s ->
  let version' := if version =? -1 then now else version in
  Put now key value version (mkDB s [])
  = (Ok (mkKeyValue key value version'),
     mkDB (put_store key value version' s) []).
Proof.
  intros Hc version'. unfold Put. fold version'.
  assert (Kmin : counter_key (encodeMeta KvVersionMin key)) by (simpl; auto).
  assert (Kmax : counter_key (encodeMeta KvVersionMax key)) by (simpl; auto).
  assert (Kcnt : counter_key (encodeMeta Meta (encodeMeta KvVersionCnt key)))
    by (simpl; auto).
  rewrite (bind_ok _ _ _ _ _ (getUint32_ok _ s Hc Kmin)).
  rewrite (bind_ok _ _ _ _ _ (getUint32_ok _ s Hc Kmax)).
  fold (min_key key) (max_key key).
  set (cmin := counter (min_key key) s).
  set (cmax := counter (max_key key) s).
  set (llen := if (cmin =? 0) && (cmax =? 0)
               then counter (cnt_key key) s else -1).
  rewrite (bind_ok _ _ (mkDB s []) (mkDB s []) llen).
  2:{ unfold llen. destruct ((cmin =? 0) && (cmax =? 0)); [|reflexivity].
      apply (getUint32_ok _ s Hc Kcnt). }
  rewrite (bind_ok _ _ (mkDB s []) (mkDB (put_min key version' s) []) tt).
  2:{ unfold put_min. fold cmin cmax llen.
      destruct ((llen =? 0) || (cmin >? version')); reflexivity. }
  rewrite (bind_ok _ _ _ (mkDB (put_max key version' s
                                  (put_min key version' s)) []) tt).
  2:{ unfold put_max. fold cmax.
      destruct ((cmax =? 0) || (cmax <? version')); reflexivity. }
  set (s2 := put_max key version' s (put_min key version' s)).
  assert (Hc2 : counters_ok s2)
    by now apply counters_ok_put_max, counters_ok_put_min.
  rewrite (bind_ok _ _ _ _ _ (kv_Get_ok _ s2)).
  rewrite (bind_ok _ _ _ (mkDB (put_cnt key version' s2) []) tt).
  2:{ unfold put_cnt.
      destruct (store_get (encodeKey key version') s2); [reflexivity|].
      apply (incrUint32_ok _ 1 s2 Hc2 Kcnt). }
  rewrite (bind_ok _ _ _ _ _ (kv_Set_ok _ _ _)).
  rewrite (bind_ok _ _ _ _ _ (kv_Set_ok _ _ _)).
  reflexivity.
Qed.

(** ** Runs of [Put] from the fresh store *)

Lemma puts_store_counters_ok (cs : list put_call) (s : store) :
  counters_ok s -> counters_ok (puts_store cs s).
Proof.
  revert s. induction cs as [|c cs IH]; intros s Hc; simpl; auto.
  apply IH. now apply counters_ok_put_store.
Qed.

Lemma run_puts_ok (cs : list put_call) (s : store) :
  counters_ok s ->
  run_puts cs (mkDB s []) = (Ok tt, mkDB (puts_store cs s) []).
Proof.
  revert s. induction cs as [|c cs IH]; intros s Hc; simpl; auto.
  rewrite (Put_ok (p_now c) (p_key c) (p_value c) (p_version c) s Hc).
  fold (p_effective c). apply IH. now apply counters_ok_put_store.
Qed.

Lemma counters_ok_nil : counters_ok [].
Proof. intros k data _ H. discriminate. Qed.

(** Every run of calls on the fresh store succeeds. *)
Lemma run_puts_fresh (cs : list put_call) :
  run_puts cs fresh = (Ok tt, mkDB (puts_store cs []) []).
Proof. apply run_puts_ok, counters_ok_nil. Qed.

Lemma puts_store_snoc (cs : list put_call) (c : put_call) (s : store) :
  puts_store (cs ++ [c]) s = put_call_store (puts_store cs s) c.
Proof. unfold puts_store. now rewrite fold_left_app. Qed.

Lemma written_snoc cs c k :
  written (cs ++ [c]) k <-> written cs k \/ p_key c = k.
Proof.
  unfold written. split.
  - intros [c' [Hin Hk]]. apply in_app_or in Hin.
    destruct Hin as [Hin|[<-|[]]]; eauto.
  - intros [[c' [Hin Hk]]|Hk].
    + exists c'. split; [apply in_or_app|]; auto.
    + exists c. split; [apply in_or_app; simpl|]; auto.
Qed.

Lemma item_written_snoc cs c k ver :
  item_written (cs ++ [c]) k ver <->
  item_written cs k ver \/ (p_key c = k /\ uint32 (p_effective c) = ver).
Proof.
  unfold item_written. split.
  - intros [c' [Hin Hk]]. apply in_app_or in Hin.
    destruct Hin as [Hin|[<-|[]]]; eauto.
  - intros [[c' [Hin Hk]]|Hk].
    + exists c'. split; [apply in_or_app|]; auto.
    + exists c. split; [apply in_or_app; simpl|]; auto.
Qed.

Lemma item_written_written cs k ver :
  item_written cs k ver -> written cs k.
Proof. intros [c [Hin [Hk _]]]. now exists c. Qed.

Lemma raw_key_of_snoc cs c rk :
  raw_key_of cs rk -> raw_key_of (cs ++ [c]) rk.
Proof.
  intros [k [Hw H]]. exists k. split; [apply written_snoc; auto|].
  destruct H as [H|[H|[H|[H|[ver [Hi H]]]]]]; auto.
  do 4 right. exists ver. split; [apply item_written_snoc|]; auto.
Qed.

Lemma store_set_In (k v : bytes) (s : store) (e : bytes * bytes) :
  In e (store_set k v s) -> e = (k, v) \/ In e s.
Proof.
  induction s as [|[k' v'] s IH]; simpl.
  - intros [<-|[]]. auto.
  - destruct (bytes_compare k k') eqn:E; simpl.
    + intros [<-|H]; auto.
    + intros [<-|[<-|H]]; auto.
    + intros [<-|H]; auto. destruct (IH H); auto.
Qed.

Lemma put_min_In key version s e :
  In e (put_min key version s) -> fst e = min_key key \/ In e s.
Proof.
  unfold put_min. destruct ((_ =? 0) || (_ >? version)); auto.
  intros H. apply store_set_In in H. destruct H as [->|H]; auto.
Qed.

Lemma put_max_In key version s0 s e :
  In e (put_max key version s0 s) -> fst e = max_key key \/ In e s.
Proof.
  unfold put_max. destruct ((_ =? 0) || (_ <? version)); auto.
  intros H. apply store_set_In in H. destruct H as [->|H]; auto.
Qed.

Lemma put_cnt_In key version s e :
  In e (put_cnt key version s) -> fst e = cnt_key key \/ In e s.
Proof.
  unfold put_cnt. destruct (store_get (encodeKey key version) s); auto.
  intros H. apply store_set_In in H. destruct H as [->|H]; auto.
Qed.

Lemma put_store_In key value version s e :
  In e (put_store key value version s) ->
  fst e = min_key key \/ fst e = max_key key \/ fst e = cnt_key key
  \/ e = (index_key key, []) \/ e = (encodeKey key version, value)
  \/ In e s.
Proof.
  unfold put_store. intros H.
  apply store_set_In in H. destruct H as [->|H]; [tauto|].
  apply store_set_In in H. destruct H as [->|H]; [tauto|].
  apply put_cnt_In in H. destruct H as [H|H]; [tauto|].
  apply put_max_In in H. destruct H as [H|H]; [tauto|].
  apply put_min_In in H. tauto.
Qed.

Lemma put_store_sorted key value version s :
  sorted s -> sorted (put_store key value version s).
Proof.
  intros Hs. unfold put_store, put_cnt, put_max, put_min.
  repeat apply store_set_sorted.
  destruct (store_get _ _); destruct ((_ =? 0) || (_ <? version));
    destruct ((_ =? 0) || (_ >? version));
    repeat apply store_set_sorted; assumption.
Qed.

Lemma puts_store_sorted cs : sorted (puts_store cs []).
Proof.
  induction cs as [|c cs IH] using rev_ind; [constructor|].
  rewrite puts_store_snoc. now apply put_store_sorted.
Qed.

(** Every raw key in the store was put there by a call of the run. *)
Lemma puts_store_raw_keys cs e :
  In e (puts_store cs []) -> raw_key_of cs (fst e).
Proof.
  revert e. induction cs as [|c cs IH] using rev_ind; intros e; [easy|].
  rewrite puts_store_snoc. unfold put_call_store. intros H.
  apply put_store_In in H.
  assert (Hw : written (cs ++ [c]) (p_key c)) by (apply written_snoc; auto).
  destruct H as [H|[H|[H|[H|[H|H]]]]].
  - exists (p_key c). auto.
  - exists (p_key c). auto.
  - exists (p_key c). auto.
  - exists (p_key c). subst e. simpl. tauto.
  - exists (p_key c). subst e. simpl. split; [auto|]. do 4 right.
    exists (uint32 (p_effective c)). rewrite encodeKey_uint32.
    split; [apply item_written_snoc|]; auto.
  - apply raw_key_of_snoc. auto.
Qed.

(** ** What one [Put] leaves in the store *)

Lemma put_min_get_other key version s rk :
  rk <> min_key key -> store_get rk (put_min key version s) = store_get rk s.
Proof.
  intros H. unfold put_min. destruct ((_ =? 0) || (_ >? version)); auto.
  now apply store_get_set_other.
Qed.

Lemma put_max_get_other key version s0 s rk :
  rk <> max_key key ->
  store_get rk (put_max key version s0 s) = store_get rk s.
Proof.
  intros H. unfold put_max. destruct ((_ =? 0) || (_ <? version)); auto.
  now apply store_get_set_other.
Qed.

Lemma put_cnt_get_other key version s rk :
  rk <> cnt_key key -> store_get rk (put_cnt key version s) = store_get rk s.
Proof.
  intros H. unfold put_cnt. destruct (store_get (encodeKey key version) s); auto.
  now apply store_get_set_other.
Qed.

(** A raw key that [Put] does not write keeps its value. *)
Lemma put_store_get_other key value version s rk :
  rk <> min_key key -> rk <> max_key key -> rk <> cnt_key key ->
  rk <> encodeKey key version -> rk <> index_key key ->
  store_get rk (put_store key value version s) = store_get rk s.
Proof.
  intros H1 H2 H3 H4 H5. unfold put_store.
  rewrite !store_get_set_other by assumption.
  rewrite put_cnt_get_other, put_max_get_other, put_min_get_other; auto.
Qed.

Lemma put_store_get_index key value version s :
  store_get (index_key key) (put_store key value version s) = Some [].
Proof. unfold put_store. apply store_get_set_same. Qed.

Lemma put_store_get_item key value version s :
  store_get (encodeKey key version) (put_store key value version s)
  = Some value.
Proof.
  unfold put_store. rewrite store_get_set_other by tag_mismatch.
  apply store_get_set_same.
Qed.

(** An item of another key or version is left as it was. *)
Lemma put_store_get_item_other key value version s rk :
  hd_error rk = Some KvItem -> rk <> encodeKey key version ->
  store_get rk (put_store key value version s) = store_get rk s.
Proof.
  intros Ht Hne. apply put_store_get_other; auto;
    intros ->; cbn in Ht; tag_mismatch.
Qed.

Lemma put_store_get_index_other key value version s k :
  k <> key ->
  store_get (index_key k) (put_store key value version s)
  = store_get (index_key k) s.
Proof.
  intros Hne. apply put_store_get_other; try tag_mismatch.
Qed.

(** [version_max] after a [Put]: replaced by the low 32 bits of the new
    version when it was 0 or below the new version, kept otherwise. *)
Lemma put_store_max key value version s :
  counter (max_key key) (put_store key value version s)
  = if (counter (max_key key) s =? 0) || (counter (max_key key) s <? version)
    then uint32 version else counter (max_key key) s.
Proof.
  unfold counter at 1.
  unfold put_store. rewrite !store_get_set_other by tag_mismatch.
  rewrite put_cnt_get_other by tag_mismatch.
  fold (counter (max_key key)
          (put_max key version s (put_min key version s))).
  unfold put_max.
  destruct ((counter (max_key key) s =? 0)
            || (counter (max_key key) s <? version)).
  - rewrite counter_set_same. apply uint32_idem.
  - unfold counter. now rewrite put_min_get_other by tag_mismatch.
Qed.

Lemma put_store_min key value version s :
  counter (min_key key) (put_store key value version s)
  = let cmin := counter (min_key key) s in
    let cmax := counter (max_key key) s in
    let llen := if (cmin =? 0) && (cmax =? 0)
                then counter (cnt_key key) s else -1 in
    if (llen =? 0) || (cmin >? version) then uint32 version else cmin.
Proof.
  unfold counter at 1.
  unfold put_store. rewrite !store_get_set_other by tag_mismatch.
  rewrite put_cnt_get_other, put_max_get_other by tag_mismatch.
  fold (counter (min_key key) (put_min key version s)).
  unfold put_min. cbv zeta.
  destruct (((if (counter (min_key key) s =? 0) && (counter (max_key key) s =? 0)
              then counter (cnt_key key) s else -1) =? 0)
            || (counter (min_key key) s >? version)).
  - rewrite counter_set_same. apply uint32_idem.
  - reflexivity.
Qed.

(** ** [Get] on a backend that does not fail *)

Lemma Get_ok (key : bytes) (version : Z) (s : store) :
  counters_ok s ->
  let version' := if version =? -1 then counter (max_key key) s else version in
  Get key version (mkDB s [])
  = (Ok (mkKeyValue key (string_of (store_get (encodeKey key version') s))
                    version'),
     mkDB s []).
Proof.
  intros Hc version'. unfold Get.
  rewrite (bind_ok _ _ (mkDB s []) (mkDB s []) version').
  2:{ unfold version'. destruct (version =? -1); [|reflexivity].
      apply getUint32_ok; [assumption|simpl; auto]. }
  rewrite (bind_ok _ _ _ _ _ (kv_Get_ok _ s)). reflexivity.
Qed.

Lemma version_max_ok (key : bytes) (s : store) :
  counters_ok s ->
  version_max key (mkDB s []) = (Ok (counter (max_key key) s), mkDB s []).
Proof. intros Hc. apply getUint32_ok; [assumption|simpl; auto]. Qed.

Lemma version_min_ok (key : bytes) (s : store) :
  counters_ok s ->
  version_min key (mkDB s []) = (Ok (counter (min_key key) s), mkDB s []).
Proof. intros Hc. apply getUint32_ok; [assumption|simpl; auto]. Qed.

Lemma VersionCnt_ok (key : bytes) (s : store) :
  counters_ok s ->
  VersionCnt key (mkDB s []) = (Ok (counter (cnt_key key) s), mkDB s []).
Proof. intros Hc. apply getUint32_ok; [assumption|simpl; auto]. Qed.

(** ** The key codec (claim C9) *)

(** C9, at a version wider than 32 bits: [decodeKey (encodeKey k v)] does
    not give [v] back.  [encodeKey] writes [uint32(index)] in four
    big-endian bytes, so the key of version [2^32 + 5], a value of Go's
    64-bit [int], decodes to version [5]. *)
Theorem C9_decodeKey_drops_high_bits :
  is_int wide_version /\
  decodeKey (encodeKey k_ wide_version) = Some (k_, 5) /\
  encodeKey k_ wide_version = encodeKey k_ 5.
Proof.
  split; [unfold is_int, wide_version; lia|]. split; reflexivity.
Qed.

(** ** [Get] of the latest version (claims C3, C6) *)

(** C3, as stated, fails on the fresh store: [version_max] of the key is
    zero, yet [Get] with version [-1] does not return an error. *)
Lemma C3_counterexample :
  ~ (fst (version_max k_ fresh) = Ok 0 ->
     exists e, fst (Get k_ (-1) fresh) = Err e).
Proof.
  intros H. destruct (H eq_refl) as [e He]. discriminate He.
Qed.

(** C3, amended: after any run of successful calls of [Put] on a fresh
    store, [Get] with version [-1] resolves the version to
    [version_max] of the key and returns the point read of that item,
    the empty string when there is no such item; when [version_max] is
    zero this is a [KeyValue] of version 0, not an error. *)
Theorem C3_Get_latest_reads_version_max (cs : list put_call) (key : bytes) :
  let d := snd (run_puts cs fresh) in
  exists m,
    version_max key d = (Ok m, d) /\
    Get key (-1) d
    = (Ok (mkKeyValue key
             (string_of (store_get (encodeKey key m) (db_store d))) m), d).
Proof.
  rewrite run_puts_fresh. cbn [snd db_store].
  pose proof (puts_store_counters_ok cs [] counters_ok_nil) as Hc.
  exists (counter (max_key key) (puts_store cs [])). split.
  - now apply version_max_ok.
  - now rewrite (Get_ok key (-1) _ Hc).
Qed.

(** C6, at a version wider than 32 bits: after a completed
    [Put(k, v, 2^32 + 5)] on the fresh store, [Get(k, -1)] returns
    version 5, which is below the version that was put. *)
Theorem C6_Get_latest_below_wide_version :
  let d := snd (Put 0 k_ v1_ wide_version fresh) in
  fst (Put 0 k_ v1_ wide_version fresh)
  = Ok (mkKeyValue k_ v1_ wide_version) /\
  Get k_ (-1) d = (Ok (mkKeyValue k_ v1_ 5), d) /\
  5 < wide_version.
Proof.
  split; [reflexivity|]. split; [reflexivity|]. reflexivity.
Qed.

(** For a version that fits 32 bits the guarantee holds: after a
    completed [Put(k, v, t)] with [0 < t < 2^32], in any state a run of
    successful calls has reached, [Get(k, -1)] returns a version at
    least [t]. *)
Lemma Get_latest_after_Put_u32 (cs : list put_call) (now : Z)
    (key value : bytes) (t : Z) :
  0 < t < 2 ^ 32 ->
  let d := snd (run_puts cs fresh) in
  let d' := snd (Put now key value t d) in
  fst (Put now key value t d) = Ok (mkKeyValue key value t) /\
  exists kv, Get key (-1) d' = (Ok kv, d') /\ t <= Version kv.
Proof.
  intros Ht. rewrite run_puts_fresh. cbn [snd db_store].
  pose proof (puts_store_counters_ok cs [] counters_ok_nil) as Hc.
  rewrite (Put_ok now key value t _ Hc).
  replace (t =? -1) with false by (symmetry; apply Z.eqb_neq; lia).
  cbn [fst snd]. split; [reflexivity|].
  set (s := puts_store cs []) in *.
  assert (Hc' : counters_ok (put_store key value t s))
    by now apply counters_ok_put_store.
  rewrite (Get_ok key (-1) _ Hc'). eexists. split; [reflexivity|].
  cbn [Version]. change (-1 =? -1) with true. cbv iota.
  rewrite put_store_max.
  pose proof (counter_range (max_key key) s) as Hr.
  destruct ((counter (max_key key) s =? 0)
            || (counter (max_key key) s <? t)) eqn:E.
  - rewrite uint32_small; lia.
  - apply orb_false_iff in E. destruct E as [_ E].
    apply Z.ltb_ge in E. exact E.
Qed.

(** ** [Put] of version 0 (claim C4) *)



(** ** Limits of the scans (claim C5) *)

(** C5, on scenario S4: with the keys a, b, ba and c each written once,
    [Keys("", "\xff", 2)] returns the three keys a, b and ba, one more
    than the limit; the loop leaves on [i > limit], after [limit + 1]
    rows.  [Versions] with limit 1 returns two rows in the same way. *)
Theorem C5_limit_yields_one_more :
  let d := snd (run_puts s4_calls fresh) in
  Keys [] [xff] 2 d
  = (Ok [ ["a"%byte]; ["b"%byte]; ["b"%byte; "a"%byte] ], d) /\
  let d3 := snd (run_puts [mkPut 0 k_ v1_ 1; mkPut 0 k_ v2_ 2;
                           mkPut 0 k_ v1_ 3] fresh) in
  Versions k_ 0 maxInt 1 d3
  = (Ok (mkKeyValueVersions k_
           [mkKeyValue [] v1_ 1; mkKeyValue [] v2_ 2]), d3).
Proof. split; reflexivity. Qed.

(** ** A [Put] that fails (claim C8) *)

Lemma items_agree_refl s : items_agree s s.
Proof. now intros k a b. Qed.

Lemma items_agree_trans s1 s2 s3 :
  items_agree s1 s2 -> items_agree s2 s3 -> items_agree s1 s3.
Proof. intros H1 H2 k a b. now rewrite H2, H1. Qed.

Lemma take_le_set_above (hi rk v : bytes) (s : store) :
  bytes_lt hi rk -> take_le hi (store_set rk v s) = take_le hi s.
Proof.
  intros Hlt. apply bytes_compare_lt_gt in Hlt.
  induction s as [|[k1 v1] s IH]; simpl.
  - unfold bytes_gtb. now rewrite Hlt.
  - destruct (bytes_compare rk k1) eqn:E; simpl.
    + apply bytes_compare_eq in E. subst k1.
      unfold bytes_gtb. now rewrite Hlt.
    + assert (Hk1 : bytes_compare k1 hi = Gt).
      { apply bytes_compare_lt_gt. apply bytes_compare_lt_gt in Hlt.
        eapply bytes_lt_trans; eauto. }
      unfold bytes_gtb. now rewrite Hlt, Hk1.
    + destruct (bytes_gtb k1 hi); [reflexivity|]. now rewrite IH.
Qed.

Lemma bytes_gtb_lt (a b : bytes) : bytes_gtb a b = true <-> bytes_lt b a.
Proof.
  unfold bytes_gtb, bytes_lt. rewrite (bytes_compare_antisym a b).
  destruct (bytes_compare a b); simpl; split; congruence.
Qed.

(** Writing a raw key outside a range leaves the range as it was. *)
Lemma range_set_outside (lo hi rk v : bytes) (s : store) :
  bytes_lt rk lo \/ bytes_lt hi rk ->
  range lo hi (store_set rk v s) = range lo hi s.
Proof.
  intros Hout. unfold range.
  assert (Hgt : bytes_ltb rk lo = false -> bytes_gtb rk hi = true).
  { intros Hlo. apply bytes_gtb_lt. destruct Hout as [H|H]; [|exact H].
    apply bytes_ltb_lt in H. congruence. }
  induction s as [|[k1 v1] s IH]; simpl.
  - destruct (bytes_ltb rk lo); [reflexivity|]. simpl. now rewrite Hgt.
  - destruct (bytes_compare rk k1) eqn:E; simpl.
    + apply bytes_compare_eq in E. subst k1.
      destruct (bytes_ltb rk lo); [reflexivity|]. simpl. now rewrite Hgt.
    + destruct (bytes_ltb rk lo) eqn:Elo; [reflexivity|].
      simpl. rewrite (Hgt eq_refl).
      assert (Hk1 : bytes_ltb k1 lo = false).
      { destruct (bytes_ltb k1 lo) eqn:Ek; [|reflexivity].
        apply bytes_ltb_lt in Ek.
        assert (H : bytes_lt rk lo) by (eapply bytes_lt_trans; eauto).
        apply bytes_ltb_lt in H. congruence. }
      rewrite Hk1. simpl.
      assert (Hk2 : bytes_gtb k1 hi = true).
      { apply bytes_gtb_lt. eapply bytes_lt_trans; [|exact E].
        apply bytes_gtb_lt. auto. }
      now rewrite Hk2.
    + destruct (bytes_ltb k1 lo) eqn:Ek; [exact IH|].
      simpl. destruct (bytes_gtb k1 hi); [reflexivity|]. f_equal.
      apply take_le_set_above. apply bytes_gtb_lt, Hgt.
      destruct (bytes_ltb rk lo) eqn:Elo; [|reflexivity].
      apply bytes_ltb_lt in Elo. apply bytes_compare_lt_gt in E.
      assert (H : bytes_lt k1 lo) by (eapply bytes_lt_trans; eauto).
      apply bytes_ltb_lt in H. congruence.
Qed.

(** A raw key outside the namespace of items lies outside every range of
    items. *)
Lemma non_item_outside (rk : bytes) (k : bytes) (a b : Z) :
  hd_error rk <> Some KvItem ->
  bytes_lt rk (encodeKey k a) \/ bytes_lt (encodeKey k b) rk.
Proof.
  intros Ht. destruct rk as [|t rk]; [left; reflexivity|].
  assert (Hne : t <> KvItem) by (intros ->; now apply Ht).
  unfold bytes_lt, encodeKey.
  rewrite bytes_compare_cons_neq by assumption.
  rewrite bytes_compare_cons_neq by congruence.
  rewrite (Z.compare_antisym (Z_of_byte t) (Z_of_byte KvItem)).
  destruct (Z.compare_spec (Z_of_byte t) (Z_of_byte KvItem)) as [E|E|E];
    simpl; auto.
  now apply Z_of_byte_inj in E.
Qed.

Lemma items_agree_set (rk v : bytes) (s : store) :
  hd_error rk <> Some KvItem -> items_agree s (store_set rk v s).
Proof.
  intros Ht k a b. apply range_set_outside. now apply non_item_outside.
Qed.

(** The loop of [Versions] reads no further than the end of its range. *)
Lemma Versions_loop_take_le enum hi limit i res :
  Versions_loop enum hi limit i res
  = Versions_loop (take_le hi enum) hi limit i res.
Proof.
  revert i res. induction enum as [|[k v] enum IH]; intros i res; simpl; auto.
  destruct (bytes_gtb k hi) eqn:E; simpl; [reflexivity|].
  rewrite E. simpl. destruct (negb (limit =? 0) && (i >? limit)); auto.
  destruct (decodeKey k) as [[m index]|]; auto.
Qed.


Lemma bind_Err_inv {A B} (m : M A) (f : A -> M B) (d d' : DB) (e : error) :
  bind m f d = (Err e, d') ->
  m d = (Err e, d') \/ exists a d1, m d = (Ok a, d1) /\ f a d1 = (Err e, d').
Proof.
  unfold bind. destruct (m d) as [[a|e1|] d1]; intros H.
  - right. eauto.
  - left. congruence.
  - discriminate.
Qed.

Lemma kv_Get_inv (k : bytes) (d d' : DB) (r : outcome (option bytes)) :
  kv_Get k d = (r, d') ->
  db_store d' = db_store d /\
  (forall e, r = Err e -> e = BackendError OpGet k).
Proof.
  unfold kv_Get, next_fault. destruct d as [s [|[|] fs]]; cbn;
    intros [= <- <-]; split; auto; intros e [=]; auto.
Qed.


Lemma getUint32_inv (k : bytes) (d d' : DB) (r : outcome Z) :
  getUint32 k d = (r, d') ->
  db_store d' = db_store d /\
  (forall e, r = Err e -> e = BackendError OpGet k).
Proof.
  unfold getUint32, bind. destruct (kv_Get k d) as [[data|e1|] d1] eqn:E;
    apply kv_Get_inv in E; destruct E as [Es Ee].
  - destruct data as [data|]; [destruct (le_Uint32 data)|];
      unfold ret, panic; intros [= <- <-]; split; auto; discriminate.
  - intros [= <- <-]. split; auto. intros e [= <-]. auto.
  - intros [= <- <-]. split; auto. discriminate.
Qed.


Section FailedPut.

Variables (key value : bytes) (version : Z).








End FailedPut.





(** ** Enumeration of keys (claim C7) *)

Lemma Keys_loop_unlimited (enum : store) (hi : bytes) (i : Z)
    (res : list bytes) :
  (forall e, In e (take_le hi enum) -> fst e <> []) ->
  Keys_loop enum hi 0 i res
  = Ok (res ++ map (fun e => tl (fst e)) (take_le hi enum)).
Proof.
  revert i res. induction enum as [|[k v] enum IH]; intros i res Hne; simpl.
  - now rewrite app_nil_r.
  - simpl in Hne. destruct (bytes_gtb k hi) eqn:E; simpl.
    + now rewrite app_nil_r.
    + destruct k as [|t k]; [now destruct (Hne ([], v)); simpl; auto|].
      rewrite IH by (intros e He; apply Hne; simpl; auto).
      simpl. now rewrite <- app_assoc.
Qed.

(** The key-existence entry of a key is there exactly when the key was
    written. *)
Lemma index_written (cs : list put_call) (k : bytes) :
  written cs k -> store_get (index_key k) (puts_store cs []) = Some [].
Proof.
  induction cs as [|c cs IH] using rev_ind.
  - intros [c [[] _]].
  - intros H. apply written_snoc in H. rewrite puts_store_snoc.
    unfold put_call_store.
    destruct (list_eq_dec byte_eq_dec k (p_key c)) as [->|Hne].
    + apply put_store_get_index.
    + rewrite put_store_get_index_other by assumption.
      destruct H as [H|H]; [auto|congruence].
Qed.

Lemma index_stored_written (cs : list put_call) (k v : bytes) :
  In (index_key k, v) (puts_store cs []) -> written cs k.
Proof.
  intros H. apply puts_store_raw_keys in H. cbn [fst] in H.
  destruct H as [k' [Hw [H|[H|[H|[H|[ver [_ H]]]]]]]]; tag_mismatch.
Qed.

(** The user keys between a prefix and the prefix followed by one byte
    0xff: the prefix followed by nothing, by a byte other than 0xff and
    anything, or by the one byte 0xff. *)
Lemma prefix_range (p k : bytes) :
  bytes_le p k /\ bytes_le k (p ++ [xff]) <->
  exists r, k = p ++ r /\ (r = [xff] \/ hd_error r <> Some xff).
Proof.
  split.
  - intros [Hlo Hhi].
    rewrite <- (app_nil_r p) in Hlo.
    destruct (sandwich_prefix p [] [xff] k Hlo Hhi) as [r ->].
    exists r. split; [reflexivity|].
    unfold bytes_le in Hhi. rewrite bytes_compare_app in Hhi.
    destruct r as [|b r]; [right; discriminate|].
    destruct (byte_eq_dec b xff) as [->|Hne].
    + left. rewrite bytes_compare_cons in Hhi.
      destruct r; [reflexivity|]. now simpl in Hhi.
    + right. simpl. congruence.
  - intros [r [-> Hr]]. unfold bytes_le. split.
    + rewrite <- (app_nil_r p) at 1. rewrite bytes_compare_app.
      destruct r; simpl; discriminate.
    + rewrite bytes_compare_app. destruct Hr as [->|Hr].
      * now rewrite bytes_compare_refl.
      * destruct r as [|b r]; [simpl; discriminate|].
        assert (Hne : b <> xff) by (intros ->; now apply Hr).
        rewrite bytes_compare_cons_neq by assumption.
        pose proof (Z_of_byte_range b) as Hb.
        assert (Hff : Z_of_byte b <> 255).
        { intros E. apply Hne. apply Z_of_byte_inj. exact E. }
        intros Hgt. apply Z.compare_gt_iff in Hgt.
        change (Z_of_byte xff) with 255 in Hgt. lia.
Qed.

Lemma sorted_map_tl (t : byte) (l : store) :
  sorted l -> (forall e, In e l -> exists k, fst e = t :: k) ->
  StronglySorted bytes_lt (map (fun e => tl (fst e)) l).
Proof.
  unfold sorted. induction l as [|[k v] l IH]; simpl; intros Hs Ht.
  - constructor.
  - inversion Hs as [|? ? Hs' Hall]; subst. constructor; [auto|].
    rewrite Forall_forall in *. intros x Hx.
    apply in_map_iff in Hx. destruct Hx as [e [<- He]].
    destruct (Ht (k, v) (or_introl eq_refl)) as [k0 Hk0].
    destruct (Ht e (or_intror He)) as [k1 Hk1].
    assert (Hlt : bytes_lt k (fst e)) by (apply Hall, in_map, He).
    destruct e as [rk v']. simpl in Hk0, Hk1, Hlt |- *. subst k rk.
    simpl. unfold bytes_lt in *. now rewrite bytes_compare_cons in Hlt.
Qed.

(** C7, as stated, fails: the key of the two bytes 0xff and "a" starts
    with the empty prefix and was written, yet [Keys("", "\xff", 0)]
    does not return it. *)
Lemma C7_counterexample :
  ~ (forall ks,
       fst (Keys [] [xff] 0
              (snd (run_puts [mkPut 0 [xff; "a"%byte] v1_ 1] fresh)))
       = Ok ks ->
       In [xff; "a"%byte] ks).
Proof. intros H. exact (H [] eq_refl). Qed.

(** C7, amended: after any run of successful calls of [Put] on a fresh
    store, [Keys(p, p+"\xff", 0)] returns, in ascending order and each
    once, exactly the user keys ever written that lie between [p] and
    [p+"\xff"] in byte order: the written keys that start with [p] and
    continue with nothing, with a byte other than 0xff, or with the one
    byte 0xff alone.  No key without the prefix is returned; a written
    key that continues with 0xff and more bytes is not returned. *)
Theorem C7_Keys_of_prefix (cs : list put_call) (p : bytes) :
  let d := snd (run_puts cs fresh) in
  exists ks,
    Keys p (p ++ [xff]) 0 d = (Ok ks, d) /\
    StronglySorted bytes_lt ks /\
    forall k, In k ks <->
      written cs k /\
      exists r, k = p ++ r /\ (r = [xff] \/ hd_error r <> Some xff).
Proof.
  rewrite run_puts_fresh. cbn [snd].
  set (s := puts_store cs []).
  set (lo := encodeMeta KvKeyIndex p).
  set (hi := encodeMeta KvKeyIndex (p ++ [xff])).
  assert (Hs : sorted s) by apply puts_store_sorted.
  assert (Hform : forall e, In e (range lo hi s) ->
                            exists k, fst e = KvKeyIndex :: k).
  { intros e He. apply range_In in He; [|assumption].
    destruct He as [_ [Hlo Hhi]].
    destruct (sandwich_prefix [KvKeyIndex] p (p ++ [xff]) (fst e) Hlo Hhi)
      as [k Hk]. now exists k. }
  exists (map (fun e => tl (fst e)) (range lo hi s)).
  split; [|split].
  - unfold Keys. rewrite (bind_ok _ _ _ _ _ (kv_Seek_ok _ s)).
    unfold lift. fold lo hi. rewrite Keys_loop_unlimited; [reflexivity|].
    intros e He. destruct (Hform e He) as [k ->]. discriminate.
  - apply (sorted_map_tl KvKeyIndex); [now apply range_sorted|exact Hform].
  - intros k. rewrite <- prefix_range. rewrite in_map_iff. split.
    + intros [e [Hk He]]. destruct (Hform e He) as [k' Hk'].
      apply range_In in He; [|assumption]. destruct He as [Hin [Hlo Hhi]].
      destruct e as [rk v]. cbn [fst] in Hk', Hk, Hlo, Hhi. subst rk.
      cbn [tl] in Hk. subst k'.
      split; [now apply (index_stored_written cs k v)|].
      unfold bytes_le, lo, hi, encodeMeta in *.
      now rewrite !bytes_compare_cons in *.
    + intros [Hw [Hlo Hhi]].
      exists (index_key k, []). split; [reflexivity|].
      apply range_In; [assumption|]. split.
      * apply store_get_In. now apply index_written.
      * unfold bytes_le, lo, hi, index_key, encodeMeta in *. cbn [fst].
        now rewrite !bytes_compare_cons.
Qed.

(** ** The scan of the versions of a key (claim C2) *)

Lemma Versions_loop_unlimited (enum : store) (hi : bytes) (i : Z)
    (res : list KeyValue) :
  (forall e, In e (take_le hi enum) -> decodeKey (fst e) <> None) ->
  Versions_loop enum hi 0 i res = Ok (res ++ map row_of (take_le hi enum)).
Proof.
  revert i res. induction enum as [|[k v] enum IH]; intros i res Hd; simpl.
  - now rewrite app_nil_r.
  - simpl in Hd. destruct (bytes_gtb k hi) eqn:E; simpl.
    + now rewrite app_nil_r.
    + assert (Hk : decodeKey k <> None)
        by (apply (Hd (k, v)); simpl; auto).
      unfold row_of at 1, row_index. cbn [fst snd].
      destruct (decodeKey k) as [[m index]|]; [|contradiction].
      rewrite IH by (intros e He; apply Hd; simpl; auto).
      now rewrite <- app_assoc.
Qed.

Lemma store_set_keeps (k v rk : bytes) (s : store) :
  store_get rk s <> None -> store_get rk (store_set k v s) <> None.
Proof.
  intros H. destruct (list_eq_dec byte_eq_dec rk k) as [->|Hne].
  - now rewrite store_get_set_same.
  - now rewrite store_get_set_other.
Qed.

(** [Put] removes nothing. *)
Lemma put_store_keeps key value version s rk :
  store_get rk s <> None ->
  store_get rk (put_store key value version s) <> None.
Proof.
  intros H. unfold put_store, put_cnt, put_max, put_min.
  do 2 apply store_set_keeps.
  destruct (store_get (encodeKey key version) _);
    destruct ((_ =? 0) || (_ <? version));
    destruct ((_ =? 0) || (_ >? version));
    repeat apply store_set_keeps; assumption.
Qed.

Lemma item_written_stored (cs : list put_call) (k : bytes) (ver : Z) :
  item_written cs k ver ->
  store_get (encodeKey k ver) (puts_store cs []) <> None.
Proof.
  induction cs as [|c cs IH] using rev_ind.
  - intros [c [[] _]].
  - intros H. apply item_written_snoc in H. rewrite puts_store_snoc.
    unfold put_call_store. destruct H as [H|[<- <-]].
    + now apply put_store_keeps, IH.
    + rewrite encodeKey_uint32, put_store_get_item. discriminate.
Qed.

Lemma item_written_range cs k ver :
  item_written cs k ver -> 0 <= ver < 2 ^ 32.
Proof. intros [c [_ [_ <-]]]. apply uint32_range. Qed.

Section VersionsScan.

Variable cs : list put_call.
Variable k : bytes.
Hypothesis cs_len : forall c, In c cs -> len (p_key c) < 2 ^ 32.
Hypothesis k_len : len k < 2 ^ 32.

Let s := puts_store cs [].
Let lo := encodeKey k 0.
Let hi := encodeKey k maxInt.

(** The entries between the items of versions 0 and [maxInt] of [k]
    are items of [k]. *)
Lemma item_range_entries (e : bytes * bytes) :
  In e (range lo hi s) ->
  exists ver, item_written cs k ver /\ fst e = encodeKey k ver.
Proof.
  intros He. apply range_In in He; [|apply puts_store_sorted].
  destruct He as [Hin [Hlo Hhi]].
  pose proof (puts_store_raw_keys cs e Hin) as Hraw.
  assert (Hpre : exists s0, fst e = item_prefix k ++ s0).
  { unfold lo, hi in Hlo, Hhi. rewrite encodeKey_prefix in Hlo, Hhi.
    exact (sandwich_prefix _ _ _ _ Hlo Hhi). }
  destruct Hpre as [s0 Hpre].
  destruct Hraw as [k' [Hw [H|[H|[H|[H|[ver [Hi H]]]]]]]];
    try (rewrite H in Hpre; unfold item_prefix in Hpre; tag_mismatch).
  exists ver.
  assert (Hk' : len k' < 2 ^ 32).
  { destruct Hw as [c [Hc <-]]. auto. }
  rewrite H in Hlo, Hhi.
  rewrite (item_in_range k k' 0 maxInt ver k_len Hk' Hlo Hhi) in *.
  auto.
Qed.

Lemma item_in_full_range (ver : Z) (val : bytes) :
  0 <= ver < 2 ^ 32 ->
  In (encodeKey k ver, val) s -> In (encodeKey k ver, val) (range lo hi s).
Proof.
  intros Hv Hin. apply range_In; [apply puts_store_sorted|].
  split; [assumption|]. cbn [fst]. unfold bytes_le, lo, hi.
  rewrite !encodeKey_compare.
  rewrite (uint32_small ver) by assumption.
  change (uint32 0) with 0. change (uint32 maxInt) with (2 ^ 32 - 1).
  split; intros H; apply Z.compare_gt_iff in H; lia.
Qed.

Lemma row_index_item (e : bytes * bytes) (ver : Z) :
  0 <= ver < 2 ^ 32 -> fst e = encodeKey k ver -> row_index e = ver.
Proof.
  intros Hv He. unfold row_index.
  rewrite He, decodeKey_encodeKey by assumption.
  now apply uint32_small.
Qed.

Lemma sorted_versions (l : store) :
  sorted l ->
  (forall e, In e l ->
     exists ver, 0 <= ver < 2 ^ 32 /\ fst e = encodeKey k ver) ->
  StronglySorted Z.lt (map row_index l).
Proof.
  unfold sorted. induction l as [|e l IH]; simpl; intros Hs Hl.
  - constructor.
  - inversion Hs as [|? ? Hs' Hall]; subst. constructor; [auto|].
    rewrite Forall_forall in *. intros x Hx.
    apply in_map_iff in Hx. destruct Hx as [e' [<- He']].
    destruct (Hl e (or_introl eq_refl)) as [v [Hv Hev]].
    destruct (Hl e' (or_intror He')) as [v' [Hv' Hev']].
    assert (Hlt : bytes_lt (fst e) (fst e')) by (apply Hall, in_map, He').
    rewrite (row_index_item e v), (row_index_item e' v') by assumption.
    unfold bytes_lt in Hlt. rewrite Hev, Hev', encodeKey_compare in Hlt.
    rewrite !uint32_small in Hlt by assumption.
    now apply Z.compare_lt_iff.
Qed.

(** The full scan of [k] on the store the run leaves. *)
Lemma Versions_full_scan :
  Versions k 0 maxInt 0 (mkDB s [])
  = (Ok (mkKeyValueVersions k (map row_of (range lo hi s))), mkDB s []).
Proof.
  unfold Versions. rewrite (bind_ok _ _ _ _ _ (kv_Seek_ok _ s)).
  unfold lift. fold lo hi.
  rewrite Versions_loop_unlimited; [reflexivity|].
  intros e He. destruct (item_range_entries e He) as [ver [_ ->]].
  rewrite decodeKey_encodeKey by assumption. discriminate.
Qed.


End VersionsScan.



(** ** [Get] of what is not there (claim C10) *)

Lemma unwritten_max (cs : list put_call) (k : bytes) :
  ~ written cs k -> store_get (max_key k) (puts_store cs []) = None.
Proof.
  intros Hn. destruct (store_get _ _) as [v|] eqn:E; [|reflexivity].
  exfalso. apply Hn. apply store_get_In, puts_store_raw_keys in E.
  cbn [fst] in E.
  destruct E as [k' [Hw [H|[H|[H|[H|[ver [_ H]]]]]]]]; tag_mismatch.
Qed.

Lemma unwritten_item (cs : list put_call) (k : bytes) (ver : Z) :
  (forall c, In c cs -> len (p_key c) < 2 ^ 32) -> len k < 2 ^ 32 ->
  ~ written cs k -> store_get (encodeKey k ver) (puts_store cs []) = None.
Proof.
  intros Hcs Hk Hn. destruct (store_get _ _) as [v|] eqn:E; [|reflexivity].
  exfalso. apply Hn. apply store_get_In, puts_store_raw_keys in E.
  cbn [fst] in E.
  destruct E as [k' [Hw [H|[H|[H|[H|[ver' [_ H]]]]]]]]; try tag_mismatch.
  assert (Hk' : len k' < 2 ^ 32) by (destruct Hw as [c [Hc <-]]; auto).
  destruct (encodeKey_inj _ _ _ _ Hk Hk' H) as [-> _]. exact Hw.
Qed.

Lemma Get_error_is_backend (key : bytes) (version : Z) (d d' : DB)
    (e : error) :
  Get key version d = (Err e, d') -> exists rk, e = BackendError OpGet rk.
Proof.
  unfold Get. intros H. apply bind_Err_inv in H.
  destruct H as [H|[ver [d1 [_ H]]]].
  - destruct (version =? -1); [|discriminate H].
    apply getUint32_inv in H. destruct H as [_ H]. eexists. now apply H.
  - apply bind_Err_inv in H. destruct H as [H|[val [d2 [_ H]]]].
    + apply kv_Get_inv in H. destruct H as [_ H]. eexists. now apply H.
    + discriminate H.
Qed.

(** C10: in any state a run of successful calls of [Put] on a fresh
    store has reached, [Get] succeeds whatever the key and the version;
    for an explicit version with no stored item it returns the key, the
    version and the empty string, the same it returns when the stored
    value is the empty string; for a key never written (keys shorter
    than 2^32 bytes) it returns the empty string at every version, at
    version 0 when asked for the latest.  Under any schedule of backend
    failures the only error [Get] returns is the one of a failed backend
    read: there is no error for a missing entry. *)
Theorem C10_Get_missing_is_empty_value (cs : list put_call) (k : bytes)
    (v : Z) :
  let d := snd (run_puts cs fresh) in
  (exists kv, Get k v d = (Ok kv, d)) /\
  (v <> -1 -> store_get (encodeKey k v) (db_store d) = None ->
   Get k v d = (Ok (mkKeyValue k [] v), d)) /\
  (v <> -1 -> store_get (encodeKey k v) (db_store d) = Some [] ->
   Get k v d = (Ok (mkKeyValue k [] v), d)) /\
  ((forall c, In c cs -> len (p_key c) < 2 ^ 32) -> len k < 2 ^ 32 ->
   ~ written cs k ->
   Get k v d = (Ok (mkKeyValue k [] (if v =? -1 then 0 else v)), d)) /\
  (forall fs e d',
     Get k v (mkDB (db_store d) fs) = (Err e, d') ->
     exists rk, e = BackendError OpGet rk).
Proof.
  rewrite run_puts_fresh. cbn [snd db_store].
  pose proof (puts_store_counters_ok cs [] counters_ok_nil) as Hc.
  set (s := puts_store cs []) in *.
  rewrite (Get_ok k v s Hc).
  split; [eexists; reflexivity|].
  split; [|split; [|split]].
  - intros Hv Hg. apply Z.eqb_neq in Hv. rewrite Hv, Hg. reflexivity.
  - intros Hv Hg. apply Z.eqb_neq in Hv. rewrite Hv, Hg. reflexivity.
  - intros Hcs Hk Hn.
    assert (Hm : counter (max_key k) s = 0).
    { unfold counter, s. now rewrite unwritten_max. }
    rewrite Hm. unfold s. now rewrite unwritten_item.
  - intros fs e d'. apply Get_error_is_backend.
Qed.

Lemma C10_witness :
  let d := snd (run_puts s3_calls fresh) in
  Get k_ 7 d = (Ok (mkKeyValue k_ [] 7), d) /\
  Get z_ (-1) d = (Ok (mkKeyValue z_ [] 0), d).
Proof.
  split.
  - refine (proj1 (proj2 (C10_Get_missing_is_empty_value s3_calls k_ 7))
              _ _).
    + intros H. discriminate H.
    + vm_compute. reflexivity.
  - refine (proj1 (proj2 (proj2 (proj2
              (C10_Get_missing_is_empty_value s3_calls z_ (-1))))) _ _ _).
    + intros c Hc. simpl in Hc.
      destruct Hc as [<-|[<-|[<-|[]]]]; vm_compute; reflexivity.
    + vm_compute. reflexivity.
    + intros [c [Hc Hk]]. simpl in Hc.
      destruct Hc as [<-|[<-|[<-|[]]]]; discriminate Hk.
Defined.

(** ** The counters (claim C1) *)

(** C1, with a version wider than 32 bits: after [Put(k, _, 10)] and
    [Put(k, _, 2^32 + 5)] on the fresh store, both successful,
    [version_max] of the key is 5 and [version_min] is 10, while the
    stored versions, as [Versions] lists them, are 5 and 10: the maximum
    is below the stored version 10 (and below the version put), the
    minimum is above the stored version 5.  The count, 2, is right. *)
Theorem C1_counters_with_wide_version :
  let cs := [mkPut 0 k_ v1_ 10; mkPut 0 k_ v2_ wide_version] in
  let d := snd (run_puts cs fresh) in
  fst (run_puts cs fresh) = Ok tt /\
  version_min k_ d = (Ok 10, d) /\
  version_max k_ d = (Ok 5, d) /\
  VersionCnt k_ d = (Ok 2, d) /\
  Versions k_ 0 maxInt 0 d
  = (Ok (mkKeyValueVersions k_
           [mkKeyValue [] v2_ 5; mkKeyValue [] v1_ 10]), d).
Proof. repeat split. Qed.

(** ** The bound that the limit does give *)

Lemma Keys_loop_bound (enum : store) (hi : bytes) (limit i : Z)
    (res ks : list bytes) :
  0 < limit -> i <= limit + 1 ->
  Keys_loop enum hi limit i res = Ok ks ->
  len_rows ks <= len_rows res + (limit + 1 - i).
Proof.
  unfold len_rows. intros Hl. revert i res.
  induction enum as [|[k v] enum IH]; intros i res Hi; simpl.
  - intros [= <-]. lia.
  - destruct (bytes_gtb k hi); simpl; [intros [= <-]; lia|].
    destruct (limit =? 0) eqn:E0; [apply Z.eqb_eq in E0; lia|]. simpl.
    destruct (i >? limit) eqn:Ei; [intros [= <-]; lia|].
    assert (Hle : i <= limit)
      by (rewrite Z.gtb_ltb in Ei; apply Z.ltb_ge in Ei; lia).
    destruct k as [|t k]; [discriminate|].
    intros H. apply IH in H; [|lia]. rewrite length_app in H. simpl in H. lia.
Qed.

Lemma Versions_loop_bound (enum : store) (hi : bytes) (limit i : Z)
    (res vs : list KeyValue) :
  0 < limit -> i <= limit + 1 ->
  Versions_loop enum hi limit i res = Ok vs ->
  len_rows vs <= len_rows res + (limit + 1 - i).
Proof.
  unfold len_rows. intros Hl. revert i res.
  induction enum as [|[k v] enum IH]; intros i res Hi; simpl.
  - intros [= <-]. lia.
  - destruct (bytes_gtb k hi); simpl; [intros [= <-]; lia|].
    destruct (limit =? 0) eqn:E0; [apply Z.eqb_eq in E0; lia|]. simpl.
    destruct (i >? limit) eqn:Ei; [intros [= <-]; lia|].
    assert (Hle : i <= limit)
      by (rewrite Z.gtb_ltb in Ei; apply Z.ltb_ge in Ei; lia).
    destruct (decodeKey k) as [[m index]|]; [|discriminate].
    intros H. apply IH in H; [|lia]. rewrite length_app in H. simpl in H. lia.
Qed.

(** With a limit [n > 0], [Keys] and [Versions] return at most [n + 1]
    rows, whatever the store and the schedule of failures. *)
Lemma scans_at_most_limit_plus_one (d d' : DB) (limit : Z) :
  0 < limit ->
  (forall start end_ ks,
     Keys start end_ limit d = (Ok ks, d') -> len_rows ks <= limit + 1) /\
  (forall key start end_ r,
     Versions key start end_ limit d = (Ok r, d') ->
     len_rows (Versions_ r) <= limit + 1).
Proof.
  intros Hl. split.
  - intros start end_ ks. unfold Keys, bind, lift.
    destruct (kv_Seek _ d) as [[enum|e|] d1]; try discriminate.
    intros [= H _]. apply Keys_loop_bound in H; [|lia|lia].
    unfold len_rows in *. simpl in H. lia.
  - intros key start end_ r. unfold Versions, bind, lift, ret.
    destruct (kv_Seek _ d) as [[enum|e|] d1]; try discriminate.
    destruct (Versions_loop _ _ _ _ _) as [vs|e|] eqn:E; try discriminate.
    intros [= <- _]. apply Versions_loop_bound in E; [|lia|lia].
    unfold len_rows in *. simpl in *. lia.
Qed.

(** ** The counters when versions fit 32 bits *)

Lemma take_le_set_inside (hi rk v : bytes) (s : store) :
  bytes_le rk hi ->
  len_rows (take_le hi (store_set rk v s))
  = len_rows (take_le hi s)
    + match store_get rk s with None => 1 | Some _ => 0 end.
Proof.
  intros Hle. apply bytes_gtb_le in Hle. unfold len_rows.
  induction s as [|[k1 v1] s IH]; simpl.
  - rewrite Hle. reflexivity.
  - destruct (bytes_compare rk k1) eqn:E; simpl.
    + apply bytes_compare_eq in E. subst k1. rewrite Hle. simpl. lia.
    + rewrite Hle. simpl. lia.
    + assert (Hk1 : bytes_gtb k1 hi = false).
      { destruct (bytes_gtb k1 hi) eqn:Eg; [|reflexivity].
        apply bytes_gtb_lt in Eg. apply bytes_compare_lt_gt in E.
        assert (H : bytes_lt hi rk) by (eapply bytes_lt_trans; eauto).
        apply bytes_gtb_lt in H. congruence. }
      rewrite Hk1. simpl length. lia.
Qed.

Lemma bytes_le_not_ltb (a b : bytes) : bytes_le a b -> bytes_ltb b a = false.
Proof.
  unfold bytes_le, bytes_ltb. rewrite (bytes_compare_antisym a b).
  destruct (bytes_compare a b); simpl; congruence.
Qed.

Lemma store_seek_set (lo rk v : bytes) (s : store) :
  bytes_le lo rk ->
  store_seek lo (store_set rk v s) = store_set rk v (store_seek lo s).
Proof.
  intros Hle. pose proof (bytes_le_not_ltb _ _ Hle) as Hrk.
  induction s as [|[k1 v1] s IH]; simpl.
  - now rewrite Hrk.
  - destruct (bytes_compare rk k1) eqn:E; simpl.
    + apply bytes_compare_eq in E. subst k1. rewrite Hrk. simpl.
      now rewrite bytes_compare_refl.
    + rewrite Hrk.
      assert (Hk1 : bytes_ltb k1 lo = false).
      { destruct (bytes_ltb k1 lo) eqn:El; [|reflexivity].
        apply bytes_ltb_lt in El.
        assert (H : bytes_lt rk lo) by (eapply bytes_lt_trans; eauto).
        apply bytes_ltb_lt in H. congruence. }
      rewrite Hk1. simpl. now rewrite E.
    + destruct (bytes_ltb k1 lo); [exact IH|]. simpl. now rewrite E.
Qed.

Lemma store_get_seek (lo rk : bytes) (s : store) :
  bytes_le lo rk -> store_get rk (store_seek lo s) = store_get rk s.
Proof.
  intros Hle. induction s as [|[k1 v1] s IH]; simpl; [reflexivity|].
  destruct (bytes_ltb k1 lo) eqn:El; [|reflexivity].
  rewrite IH. apply bytes_ltb_lt in El.
  destruct (bytes_compare rk k1) eqn:E; [| |reflexivity]; exfalso.
  - apply bytes_compare_eq in E. subst k1. apply Hle.
    now apply bytes_compare_lt_gt.
  - apply Hle, bytes_compare_lt_gt. eapply bytes_lt_trans; eauto.
Qed.

(** Writing a raw key inside a range adds one entry to the range when
    the key was not there, none when it was. *)
Lemma range_set_inside (lo hi rk v : bytes) (s : store) :
  bytes_le lo rk -> bytes_le rk hi ->
  len_rows (range lo hi (store_set rk v s))
  = len_rows (range lo hi s)
    + match store_get rk s with None => 1 | Some _ => 0 end.
Proof.
  intros Hlo Hhi. unfold range.
  rewrite store_seek_set, take_le_set_inside by assumption.
  now rewrite store_get_seek.
Qed.

Lemma not_lt_le (a b : bytes) : ~ bytes_lt a b -> bytes_le b a.
Proof.
  unfold bytes_lt, bytes_le. intros H Hgt. apply H.
  now apply bytes_compare_lt_gt.
Qed.

Section CountersOfOneKey.

Variable k : bytes.
Hypothesis k_len : len k < 2 ^ 32.

Let lo := encodeKey k 0.
Let hi := encodeKey k maxInt.

Lemma range_put_min key version s :
  range lo hi (put_min key version s) = range lo hi s.
Proof.
  unfold put_min. destruct ((_ =? 0) || (_ >? version)); [|reflexivity].
  apply range_set_outside, non_item_outside. cbn. tag_mismatch.
Qed.

Lemma range_put_max key version s0 s :
  range lo hi (put_max key version s0 s) = range lo hi s.
Proof.
  unfold put_max. destruct ((_ =? 0) || (_ <? version)); [|reflexivity].
  apply range_set_outside, non_item_outside. cbn. tag_mismatch.
Qed.

Lemma range_put_cnt key version s :
  range lo hi (put_cnt key version s) = range lo hi s.
Proof.
  unfold put_cnt. destruct (store_get _ s); [reflexivity|].
  apply range_set_outside, non_item_outside. cbn. tag_mismatch.
Qed.

Lemma put_store_get_item_before key version s rk :
  hd_error rk = Some KvItem ->
  store_get rk (put_cnt key version
                  (put_max key version s (put_min key version s)))
  = store_get rk s.
Proof.
  intros Ht.
  rewrite put_cnt_get_other, put_max_get_other, put_min_get_other;
    try reflexivity; intros ->; cbn in Ht; tag_mismatch.
Qed.

(** A [Put] on [k] adds one item of [k] when the version is new. *)
Lemma item_count_put_same value version s :
  0 <= version < 2 ^ 32 ->
  item_count k (put_store k value version s)
  = item_count k s
    + match store_get (encodeKey k version) s with
      | None => 1
      | Some _ => 0
      end.
Proof.
  intros Hv. unfold item_count, put_store. fold lo hi.
  rewrite range_set_outside
    by (apply non_item_outside; cbn; tag_mismatch).
  rewrite range_set_inside.
  - rewrite range_put_cnt, range_put_max, range_put_min.
    now rewrite (put_store_get_item_before k version s) by reflexivity.
  - unfold bytes_le, lo. rewrite encodeKey_compare.
    rewrite (uint32_small version) by assumption.
    change (uint32 0) with 0. intros H. apply Z.compare_gt_iff in H. lia.
  - unfold bytes_le, hi. rewrite encodeKey_compare.
    rewrite (uint32_small version) by assumption.
    change (uint32 maxInt) with (2 ^ 32 - 1).
    intros H. apply Z.compare_gt_iff in H. lia.
Qed.

(** A [Put] on another key leaves the items of [k] alone. *)
Lemma item_count_put_other key value version s :
  len key < 2 ^ 32 -> key <> k ->
  item_count k (put_store key value version s) = item_count k s.
Proof.
  intros Hlen Hne. unfold item_count, put_store. fold lo hi.
  rewrite range_set_outside
    by (apply non_item_outside; cbn; tag_mismatch).
  rewrite range_set_outside.
  - now rewrite range_put_cnt, range_put_max, range_put_min.
  - destruct (bytes_compare (encodeKey key version) lo) eqn:E1;
      [| left; exact E1 |].
    + apply bytes_compare_eq in E1. unfold lo in E1.
      destruct (encodeKey_inj _ _ _ _ Hlen k_len E1). contradiction.
    + destruct (bytes_compare hi (encodeKey key version)) eqn:E2;
        [| right; exact E2 |].
      * apply bytes_compare_eq in E2. unfold hi in E2. symmetry in E2.
        destruct (encodeKey_inj _ _ _ _ Hlen k_len E2). contradiction.
      * exfalso. apply Hne.
        apply (item_in_range k key 0 maxInt version k_len Hlen).
        -- apply not_lt_le. fold lo. unfold bytes_lt. congruence.
        -- apply not_lt_le. fold hi. unfold bytes_lt. congruence.
Qed.

Lemma counter_put_other key value version s rk :
  rk = min_key k \/ rk = max_key k \/ rk = cnt_key k ->
  key <> k ->
  counter rk (put_store key value version s) = counter rk s.
Proof.
  intros Hrk Hne. unfold counter.
  rewrite put_store_get_other; [reflexivity|..];
    destruct Hrk as [->|[->| ->]]; tag_mismatch.
Qed.

Lemma put_store_cnt value version s :
  counter (cnt_key k) (put_store k value version s)
  = match store_get (encodeKey k version) s with
    | None => uint32 (counter (cnt_key k) s + 1)
    | Some _ => counter (cnt_key k) s
    end.
Proof.
  unfold counter at 1. unfold put_store.
  rewrite !store_get_set_other by tag_mismatch.
  fold (counter (cnt_key k)
          (put_cnt k version (put_max k version s (put_min k version s)))).
  unfold put_cnt.
  assert (Hi : store_get (encodeKey k version)
                 (put_max k version s (put_min k version s))
               = store_get (encodeKey k version) s).
  { rewrite put_max_get_other, put_min_get_other by tag_mismatch.
    reflexivity. }
  assert (Hc : counter (cnt_key k) (put_max k version s (put_min k version s))
               = counter (cnt_key k) s).
  { unfold counter.
    rewrite put_max_get_other, put_min_get_other by tag_mismatch.
    reflexivity. }
  rewrite Hi. destruct (store_get (encodeKey k version) s).
  - exact Hc.
  - rewrite counter_set_same, uint32_idem, Hc. reflexivity.
Qed.

End CountersOfOneKey.

Lemma sorted_same_key (x : bytes) (l : store) :
  sorted l -> (forall e, In e l -> fst e = x) -> (length l <= 1)%nat.
Proof.
  unfold sorted. intros Hs Hx.
  destruct l as [|e1 [|e2 l]]; simpl; try lia. exfalso.
  inversion Hs as [|? ? _ Hall]; subst. inversion Hall as [|? ? Hlt _]; subst.
  rewrite (Hx e1), (Hx e2) in Hlt by (simpl; auto).
  unfold bytes_lt in Hlt. rewrite bytes_compare_refl in Hlt. discriminate.
Qed.

(** When the maximum and the count of [k] are both 0, no item of [k] is
    stored. *)
Lemma no_items_when_unset (cs : list put_call) (k : bytes) :
  (forall c, In c cs -> len (p_key c) < 2 ^ 32) -> len k < 2 ^ 32 ->
  counters_bound cs k ->
  counter (max_key k) (puts_store cs []) = 0 ->
  counter (cnt_key k) (puts_store cs []) = 0 ->
  forall ver, ~ item_written cs k ver.
Proof.
  intros Hcs Hk [HA HB] Hmax Hcnt ver Hw.
  set (s := puts_store cs []) in *.
  set (l := range (encodeKey k 0) (encodeKey k maxInt) s).
  assert (Hzero : forall v, item_written cs k v -> v = 0).
  { intros v Hv. pose proof (HA v Hv). pose proof (item_written_range _ _ _ Hv).
    lia. }
  assert (Hall : forall e, In e l -> fst e = encodeKey k 0).
  { intros e He. destruct (item_range_entries cs k Hcs Hk e He) as [v [Hv ->]].
    now rewrite (Hzero v Hv). }
  assert (Hle : (length l <= 1)%nat).
  { apply (sorted_same_key (encodeKey k 0)); [|exact Hall].
    apply range_sorted, puts_store_sorted. }
  assert (Hge : (1 <= length l)%nat).
  { rewrite (Hzero ver Hw) in Hw.
    pose proof (item_written_stored cs k 0 Hw) as Hst. fold s in Hst.
    destruct (store_get (encodeKey k 0) s) as [val|] eqn:E; [|contradiction].
    assert (Hin : In (encodeKey k 0, val) l).
    { apply (item_in_full_range cs k 0 val); [lia|].
      now apply store_get_In. }
    destruct l; [contradiction|simpl; lia]. }
  unfold item_count, len_rows in HB. fold s l in HB.
  replace (length l) with 1%nat in HB by lia.
  rewrite Hcnt in HB. discriminate HB.
Qed.

(** For versions that fit 32 bits the counters are right: along any run
    of successful calls of [Put] on the fresh store, [version_min] and
    [version_max] of a key bound the versions stored for it, and the
    version count is the number of items stored for it (modulo 2^32). *)
Lemma counters_bound_u32 (cs : list put_call) (k : bytes) :
  (forall c, In c cs -> len (p_key c) < 2 ^ 32) -> len k < 2 ^ 32 ->
  (forall c, In c cs -> 0 <= p_effective c < 2 ^ 32) ->
  counters_bound cs k.
Proof.
  intros Hcs Hk Hver. induction cs as [|c cs IH] using rev_ind.
  - split; [intros ver [c [[] _]]|reflexivity].
  - assert (Hcs' : forall c0, In c0 cs -> len (p_key c0) < 2 ^ 32)
      by (intros c0 H0; apply Hcs, in_or_app; auto).
    assert (Hver' : forall c0, In c0 cs -> 0 <= p_effective c0 < 2 ^ 32)
      by (intros c0 H0; apply Hver, in_or_app; auto).
    assert (Hc : len (p_key c) < 2 ^ 32)
      by (apply Hcs, in_or_app; simpl; auto).
    assert (Hv : 0 <= p_effective c < 2 ^ 32)
      by (apply Hver, in_or_app; simpl; auto).
    specialize (IH Hcs' Hver').
    pose proof (no_items_when_unset cs k Hcs' Hk IH) as Hunset.
    destruct IH as [HA HB]. unfold counters_bound.
    rewrite puts_store_snoc. unfold put_call_store.
    set (s := puts_store cs []) in *.
    destruct (list_eq_dec byte_eq_dec (p_key c) k) as [Heq|Hne].
    + rewrite Heq. set (v := p_effective c) in *.
      pose proof (counter_range (min_key k) s) as Rmin.
      pose proof (counter_range (max_key k) s) as Rmax.
      split.
      * intros ver Hw. rewrite put_store_min, put_store_max. cbv zeta.
        rewrite (uint32_small v Hv), Z.gtb_ltb.
        apply item_written_snoc in Hw.
        set (llen := if (counter (min_key k) s =? 0)
                        && (counter (max_key k) s =? 0)
                     then counter (cnt_key k) s else -1).
        assert (Hold : (llen =? 0) = true -> ~ item_written cs k ver).
        { unfold llen. intros El.
          destruct ((counter (min_key k) s =? 0)
                    && (counter (max_key k) s =? 0)) eqn:E00;
            [|discriminate El].
          apply andb_true_iff in E00. destruct E00 as [_ E0].
          apply Z.eqb_eq in E0. apply Z.eqb_eq in El. now apply Hunset. }
        destruct (llen =? 0) eqn:El;
          destruct (Z.eqb_spec (counter (max_key k) s) 0);
          destruct (Z.ltb_spec (counter (max_key k) s) v);
          destruct (Z.ltb_spec v (counter (min_key k) s));
          cbn [orb];
          (destruct Hw as [Hw|[_ Hw]];
           [ try (now destruct (Hold eq_refl Hw));
             pose proof (HA ver Hw); lia
           | rewrite uint32_small in Hw by assumption; lia ]).
      * rewrite put_store_cnt, (item_count_put_same k) by assumption.
        fold v. destruct (store_get (encodeKey k v) s).
        -- rewrite Z.add_0_r. exact HB.
        -- rewrite HB. unfold uint32. now rewrite Z.add_mod_idemp_l by lia.
    + split.
      * intros ver Hw. apply item_written_snoc in Hw.
        destruct Hw as [Hw|[Hw _]]; [|contradiction].
        rewrite !(counter_put_other k) by auto. auto.
      * rewrite (counter_put_other k) by auto.
        now rewrite (item_count_put_other k Hk) by assumption.
Qed.

(** The same, as a caller sees it: for versions that fit 32 bits,
    [version_min] and [version_max] bound every version that
    [Versions] lists for the key, and [VersionCnt] is the number of rows
    (modulo 2^32). *)
Lemma counters_right_when_versions_fit (cs : list put_call) (k : bytes) :
  (forall c, In c cs -> len (p_key c) < 2 ^ 32) -> len k < 2 ^ 32 ->
  (forall c, In c cs -> 0 <= p_effective c < 2 ^ 32) ->
  let d := snd (run_puts cs fresh) in
  exists mn mx n vs,
    version_min k d = (Ok mn, d) /\
    version_max k d = (Ok mx, d) /\
    VersionCnt k d = (Ok n, d) /\
    Versions k 0 maxInt 0 d = (Ok (mkKeyValueVersions k vs), d) /\
    (forall kv, In kv vs -> mn <= Version kv <= mx) /\
    n = len_rows vs mod 2 ^ 32.
Proof.
  intros Hcs Hk Hver. rewrite run_puts_fresh. cbn [snd].
  pose proof (puts_store_counters_ok cs [] counters_ok_nil) as Hc.
  destruct (counters_bound_u32 cs k Hcs Hk Hver) as [HA HB].
  set (s := puts_store cs []) in *.
  exists (counter (min_key k) s), (counter (max_key k) s),
    (counter (cnt_key k) s),
    (map row_of (range (encodeKey k 0) (encodeKey k maxInt) s)).
  split; [now apply version_min_ok|].
  split; [now apply version_max_ok|].
  split; [now apply VersionCnt_ok|].
  split; [now apply Versions_full_scan|].
  split.
  - intros kv Hkv. apply in_map_iff in Hkv. destruct Hkv as [e [<- He]].
    destruct (item_range_entries cs k Hcs Hk e He) as [ver [Hw Hf]].
    cbn [row_of Version].
    rewrite (row_index_item k Hk e ver); [auto| |assumption].
    eapply item_written_range; eauto.
  - rewrite HB. unfold item_count, len_rows. now rewrite length_map.
Qed.

(** * Further properties of the store *)

(** ** The key codec *)

(** X1: decoding an encoded item key gives back the user key and the
    low 32 bits of the version; a version between 0 and 2^32 - 1 comes
    back unchanged. *)
Theorem X1_decodeKey_encodeKey (key : bytes) (index : Z) :
  len key < 2 ^ 32 ->
  decodeKey (encodeKey key index) = Some (key, index mod 2 ^ 32) /\
  (0 <= index < 2 ^ 32 -> decodeKey (encodeKey key index) = Some (key, index)).
Proof.
  intros Hk. pose proof (decodeKey_encodeKey key index Hk) as H.
  split; [exact H|]. intros Hi. rewrite H. now rewrite uint32_small.
Qed.

Lemma X1_witness :
  decodeKey (encodeKey k_ 7) = Some (k_, 7 mod 2 ^ 32) /\
  decodeKey (encodeKey k_ 7) = Some (k_, 7).
Proof.
  assert (Hk : len k_ < 2 ^ 32) by (vm_compute; reflexivity).
  split.
  - apply (proj1 (X1_decodeKey_encodeKey k_ 7 Hk)).
  - apply (proj2 (X1_decodeKey_encodeKey k_ 7 Hk)). lia.
Defined.

(** X2: two items have the same raw key exactly when they have the same
    user key and versions with the same low 32 bits (user keys shorter
    than 2^32 bytes). *)
Theorem X2_encodeKey_injective (k k' : bytes) (v v' : Z) :
  len k < 2 ^ 32 -> len k' < 2 ^ 32 ->
  (encodeKey k v = encodeKey k' v' <->
   k = k' /\ v mod 2 ^ 32 = v' mod 2 ^ 32).
Proof.
  intros Hk Hk'. split.
  - now apply encodeKey_inj.
  - intros [-> Hv]. rewrite <- (encodeKey_uint32 k' v), <- (encodeKey_uint32 k' v').
    unfold uint32. now rewrite Hv.
Qed.

Lemma X2_witness :
  encodeKey k_ 5 = encodeKey k_ wide_version <->
  k_ = k_ /\ 5 mod 2 ^ 32 = wide_version mod 2 ^ 32.
Proof.
  apply (X2_encodeKey_injective k_ k_ 5 wide_version);
    vm_compute; reflexivity.
Defined.

(** X3: the raw keys of two items of one user key compare, byte by byte,
    as the low 32 bits of their versions compare as numbers. *)
Theorem X3_encodeKey_order (k : bytes) (a b : Z) :
  bytes_compare (encodeKey k a) (encodeKey k b)
  = (a mod 2 ^ 32 ?= b mod 2 ^ 32).
Proof. apply encodeKey_compare. Qed.

(** X4: an item whose raw key lies between two raw keys of items of [k]
    is an item of [k]: in the order of the backend the items of one
    user key are contiguous (user keys shorter than 2^32 bytes). *)
Theorem X4_items_of_a_key_contiguous (k k' : bytes) (lo hi v' : Z) :
  len k < 2 ^ 32 -> len k' < 2 ^ 32 ->
  bytes_compare (encodeKey k lo) (encodeKey k' v') <> Gt ->
  bytes_compare (encodeKey k' v') (encodeKey k hi) <> Gt ->
  k' = k.
Proof. apply item_in_range. Qed.

Lemma X4_witness : k_ = k_.
Proof.
  apply (X4_items_of_a_key_contiguous k_ k_ 0 9 5);
    vm_compute; try reflexivity; discriminate.
Defined.

(** ** The counters *)

(** X5: on a backend that does not fail, [getUint32] of a key that is
    not stored returns 0, and after [putUint32(key, v)] [getUint32(key)]
    returns [v] modulo 2^32, whatever was stored before. *)
Theorem X5_getUint32_after_putUint32 (s : store) (key : bytes) (v : Z) :
  (store_get key s = None ->
   getUint32 key (mkDB s []) = (Ok 0, mkDB s [])) /\
  (let d1 := snd (putUint32 key v (mkDB s [])) in
   fst (putUint32 key v (mkDB s [])) = Ok tt /\
   getUint32 key d1 = (Ok (v mod 2 ^ 32), d1)).
Proof.
  split.
  - intros Hn. unfold getUint32.
    rewrite (bind_ok _ _ _ _ _ (kv_Get_ok key s)). now rewrite Hn.
  - rewrite putUint32_ok. cbn [fst snd]. split; [reflexivity|].
    unfold getUint32. rewrite (bind_ok _ _ _ _ _ (kv_Get_ok key _)).
    rewrite store_get_set_same.
    rewrite <- (app_nil_r (le_PutUint32 v)), le_Uint32_Put. reflexivity.
Qed.

Lemma X5_witness :
  getUint32 (encodeMeta KvVersionMax k_) fresh = (Ok 0, fresh).
Proof.
  apply (proj1 (X5_getUint32_after_putUint32 [] (encodeMeta KvVersionMax k_) 0)).
  reflexivity.
Defined.

(** X6: on a backend that does not fail, [incrUint32(key, step)] on a
    counter that reads [c] succeeds and leaves a counter that reads
    [c + step] modulo 2^32: a counter at 2^32 - 1 wraps to 0. *)
Theorem X6_incrUint32_wraps (s : store) (key : bytes) (c step : Z) :
  getUint32 key (mkDB s []) = (Ok c, mkDB s []) ->
  let d1 := snd (incrUint32 key step (mkDB s [])) in
  fst (incrUint32 key step (mkDB s [])) = Ok tt /\
  getUint32 key d1 = (Ok ((c + step) mod 2 ^ 32), d1).
Proof.
  unfold getUint32 at 1. rewrite (bind_ok _ _ _ _ _ (kv_Get_ok key s)).
  intros Hc. unfold incrUint32.
  rewrite (bind_ok _ _ _ _ _ (kv_Get_ok key s)).
  assert (Hv : (match store_get key s with
                | Some data => match le_Uint32 data with
                               | Some v => ret v
                               | None => panic
                               end
                | None => ret 0
                end) (mkDB s []) = (Ok c, mkDB s [])).
  { destruct (store_get key s) as [data|]; [|exact Hc].
    destruct (le_Uint32 data); [exact Hc|discriminate Hc]. }
  rewrite (bind_ok _ _ _ _ _ Hv). rewrite kv_Set_ok. cbn [fst snd].
  split; [reflexivity|].
  unfold getUint32. rewrite (bind_ok _ _ _ _ _ (kv_Get_ok key _)).
  rewrite store_get_set_same.
  rewrite <- (app_nil_r (le_PutUint32 _)), le_Uint32_Put.
  unfold uint32, ret. rewrite Z.mod_mod by lia.
  now rewrite Z.add_mod_idemp_r by lia.
Qed.

Lemma X6_witness :
  let s := store_set k_ (le_PutUint32 (2 ^ 32 - 1)) [] in
  let d1 := snd (incrUint32 k_ 1 (mkDB s [])) in
  fst (incrUint32 k_ 1 (mkDB s [])) = Ok tt /\
  getUint32 k_ d1 = (Ok ((2 ^ 32 - 1 + 1) mod 2 ^ 32), d1).
Proof.
  apply (X6_incrUint32_wraps (store_set k_ (le_PutUint32 (2 ^ 32 - 1)) [])
           k_ (2 ^ 32 - 1) 1).
  vm_compute. reflexivity.
Defined.

(** ** [Put] followed by [Get] *)

Lemma last_put_snoc (cs : list put_call) (c : put_call) (k : bytes) (ver : Z) :
  last_put (cs ++ [c]) k ver
  = if list_eq_dec byte_eq_dec (p_key c) k
    then if uint32 (p_effective c) =? uint32 ver
         then Some (p_value c) else last_put cs k ver
    else last_put cs k ver.
Proof.
  induction cs as [|c0 cs IH]; simpl.
  - destruct (list_eq_dec byte_eq_dec (p_key c) k); [|reflexivity].
    destruct (uint32 (p_effective c) =? uint32 ver); reflexivity.
  - rewrite IH.
    destruct (list_eq_dec byte_eq_dec (p_key c) k); [|reflexivity].
    destruct (uint32 (p_effective c) =? uint32 ver); reflexivity.
Qed.

(** What is stored for an item is what the last call for it has put. *)
Lemma stored_is_last_put (cs : list put_call) (k : bytes) (ver : Z) :
  (forall c, In c cs -> len (p_key c) < 2 ^ 32) -> len k < 2 ^ 32 ->
  store_get (encodeKey k ver) (puts_store cs []) = last_put cs k ver.
Proof.
  intros Hcs Hk. induction cs as [|c cs IH] using rev_ind; [reflexivity|].
  assert (Hcs' : forall c0, In c0 cs -> len (p_key c0) < 2 ^ 32)
    by (intros c0 H0; apply Hcs, in_or_app; auto).
  assert (Hc : len (p_key c) < 2 ^ 32)
    by (apply Hcs, in_or_app; simpl; auto).
  rewrite puts_store_snoc, last_put_snoc. unfold put_call_store.
  destruct (list_eq_dec byte_eq_dec (p_key c) k) as [Heq|Hne].
  - destruct (Z.eqb_spec (uint32 (p_effective c)) (uint32 ver)) as [Hv|Hv].
    + rewrite <- Heq, <- (encodeKey_uint32 (p_key c) ver), <- Hv,
        encodeKey_uint32.
      apply put_store_get_item.
    + rewrite put_store_get_item_other; [auto|reflexivity|].
      intros H. apply encodeKey_inj in H; [|assumption..].
      destruct H as [_ H]. congruence.
  - rewrite put_store_get_item_other; [auto|reflexivity|].
    intros H. apply encodeKey_inj in H; [|assumption..].
    destruct H as [H _]. congruence.
Qed.

(** X7: after any run of successful calls of [Put] on a fresh store
    (keys shorter than 2^32 bytes), [Get(k, t)] with an explicit
    version returns the key, the version as asked and the value of the
    last [Put] of [k] whose version has the low 32 bits of [t], the
    empty string when there is no such call. *)
Theorem X7_Get_returns_last_Put (cs : list put_call) (k : bytes) (t : Z) :
  (forall c, In c cs -> len (p_key c) < 2 ^ 32) -> len k < 2 ^ 32 ->
  t <> -1 ->
  let d := snd (run_puts cs fresh) in
  Get k t d = (Ok (mkKeyValue k (string_of (last_put cs k t)) t), d).
Proof.
  intros Hcs Hk Ht. rewrite run_puts_fresh. cbn [snd].
  rewrite Get_ok by (apply puts_store_counters_ok, counters_ok_nil).
  apply Z.eqb_neq in Ht. rewrite Ht.
  now rewrite stored_is_last_put.
Qed.

Lemma X7_witness :
  let d := snd (run_puts s3_calls fresh) in
  Get k_ 200 d
  = (Ok (mkKeyValue k_ (string_of (last_put s3_calls k_ 200)) 200), d).
Proof.
  apply (X7_Get_returns_last_Put s3_calls k_ 200).
  - intros c Hc. simpl in Hc.
    destruct Hc as [<-|[<-|[<-|[]]]]; vm_compute; reflexivity.
  - vm_compute. reflexivity.
  - discriminate.
Defined.

(** X8: a [Put] at a version that is already stored for the key
    replaces the value and leaves the version count as it was: after
    [Put(k, v1, t)] and then [Put(k, v2, t)], in any state a run of
    successful calls has reached, [VersionCnt(k)] is what it was after
    the first call and [Get(k, t)] returns [v2]. *)
Theorem X8_Put_again_replaces (cs : list put_call) (now1 now2 : Z)
    (k v1 v2 : bytes) (t : Z) :
  t <> -1 ->
  let d := snd (run_puts cs fresh) in
  let d1 := snd (Put now1 k v1 t d) in
  let d2 := snd (Put now2 k v2 t d1) in
  fst (Put now2 k v2 t d1) = Ok (mkKeyValue k v2 t) /\
  fst (VersionCnt k d2) = fst (VersionCnt k d1) /\
  Get k t d2 = (Ok (mkKeyValue k v2 t), d2).
Proof.
  intros Ht. rewrite run_puts_fresh. cbn [snd].
  pose proof (puts_store_counters_ok cs [] counters_ok_nil) as Hc.
  set (s := puts_store cs []) in *.
  apply Z.eqb_neq in Ht.
  rewrite (Put_ok now1 k v1 t s Hc). rewrite Ht. cbn [snd].
  assert (Hc1 : counters_ok (put_store k v1 t s))
    by now apply counters_ok_put_store.
  rewrite (Put_ok now2 k v2 t _ Hc1). rewrite Ht. cbn [fst snd].
  assert (Hc2 : counters_ok (put_store k v2 t (put_store k v1 t s)))
    by now apply counters_ok_put_store.
  split; [reflexivity|]. split.
  - rewrite !VersionCnt_ok by assumption. cbn [fst]. f_equal.
    rewrite put_store_cnt. now rewrite put_store_get_item.
  - rewrite Get_ok by assumption. rewrite Ht.
    now rewrite put_store_get_item.
Qed.

Lemma X8_witness :
  let d := snd (run_puts s3_calls fresh) in
  let d1 := snd (Put 0 k_ v1_ 7 d) in
  let d2 := snd (Put 0 k_ v2_ 7 d1) in
  fst (Put 0 k_ v2_ 7 d1) = Ok (mkKeyValue k_ v2_ 7) /\
  fst (VersionCnt k_ d2) = fst (VersionCnt k_ d1) /\
  Get k_ 7 d2 = (Ok (mkKeyValue k_ v2_ 7), d2).
Proof.
  apply (X8_Put_again_replaces s3_calls 0 0 k_ v1_ v2_ 7). discriminate.
Defined.

(** ** One key and the others *)

Lemma items_agree_put_counters key version s :
  items_agree s (put_cnt key version
                   (put_max key version s (put_min key version s))).
Proof.
  assert (H1 : items_agree s (put_min key version s)).
  { unfold put_min. destruct ((_ =? 0) || (_ >? version));
      [|apply items_agree_refl].
    apply items_agree_set. cbn. tag_mismatch. }
  assert (H2 : items_agree (put_min key version s)
                 (put_max key version s (put_min key version s))).
  { unfold put_max. destruct ((_ =? 0) || (_ <? version));
      [|apply items_agree_refl].
    apply items_agree_set. cbn. tag_mismatch. }
  eapply items_agree_trans; [exact H1|].
  eapply items_agree_trans; [exact H2|].
  unfold put_cnt. destruct (store_get _ _); [apply items_agree_refl|].
  apply items_agree_set. cbn. tag_mismatch.
Qed.

(** A [Put] on another key leaves every range of items of [k] alone. *)
Lemma range_put_store_other (k key value : bytes) (a b version : Z)
    (s : store) :
  len k < 2 ^ 32 -> len key < 2 ^ 32 -> key <> k ->
  range (encodeKey k a) (encodeKey k b) (put_store key value version s)
  = range (encodeKey k a) (encodeKey k b) s.
Proof.
  intros Hk Hlen Hne. unfold put_store.
  rewrite range_set_outside
    by (apply non_item_outside; cbn; tag_mismatch).
  rewrite range_set_outside.
  - apply items_agree_put_counters.
  - destruct (bytes_compare (encodeKey key version) (encodeKey k a)) eqn:E1;
      [| left; exact E1 |].
    + apply bytes_compare_eq in E1.
      destruct (encodeKey_inj _ _ _ _ Hlen Hk E1). contradiction.
    + destruct (bytes_compare (encodeKey k b) (encodeKey key version)) eqn:E2;
        [| right; exact E2 |].
      * apply bytes_compare_eq in E2. symmetry in E2.
        destruct (encodeKey_inj _ _ _ _ Hlen Hk E2). contradiction.
      * exfalso. apply Hne.
        apply (item_in_range k key a b version Hk Hlen).
        -- apply not_lt_le. unfold bytes_lt. congruence.
        -- apply not_lt_le. unfold bytes_lt. congruence.
Qed.

Lemma Versions_range_agree (s s' : store) (fs : list bool)
    (key : bytes) (start end_ limit : Z) :
  range (encodeKey key start) (encodeKey key end_) s'
  = range (encodeKey key start) (encodeKey key end_) s ->
  fst (Versions key start end_ limit (mkDB s' fs))
  = fst (Versions key start end_ limit (mkDB s fs)).
Proof.
  intros Ha. unfold Versions, bind, kv_Seek, next_fault, lift, ret.
  cbn [db_faults db_store].
  assert (E : Versions_loop (store_seek (encodeKey key start) s')
                (encodeKey key end_) limit 0 []
              = Versions_loop (store_seek (encodeKey key start) s)
                  (encodeKey key end_) limit 0 []).
  { rewrite (Versions_loop_take_le (store_seek _ s')),
      (Versions_loop_take_le (store_seek _ s)).
    fold (range (encodeKey key start) (encodeKey key end_) s').
    fold (range (encodeKey key start) (encodeKey key end_) s).
    now rewrite Ha. }
  destruct fs as [|[|] fs]; cbn [db_store]; try reflexivity;
    rewrite E; clear E;
    destruct (Versions_loop (store_seek (encodeKey key start) s)
                (encodeKey key end_) limit 0 []); reflexivity.
Qed.

(** X9: a successful [Put] on one key changes nothing that the
    operations show of another key [k] (keys shorter than 2^32 bytes):
    [Get(k, t)] for every [t], [version_min], [version_max],
    [VersionCnt] and [Versions(k, ...)] return what they returned
    before. *)
Theorem X9_Put_leaves_other_keys (cs : list put_call) (now : Z)
    (key value : bytes) (version : Z) (k : bytes) :
  len key < 2 ^ 32 -> len k < 2 ^ 32 -> key <> k ->
  let d := snd (run_puts cs fresh) in
  let d' := snd (Put now key value version d) in
  fst (Put now key value version d)
  = Ok (mkKeyValue key value (if version =? -1 then now else version)) /\
  (forall t, fst (Get k t d') = fst (Get k t d)) /\
  fst (version_min k d') = fst (version_min k d) /\
  fst (version_max k d') = fst (version_max k d) /\
  fst (VersionCnt k d') = fst (VersionCnt k d) /\
  (forall start end_ limit,
     fst (Versions k start end_ limit d')
     = fst (Versions k start end_ limit d)).
Proof.
  intros Hlen Hk Hne. rewrite run_puts_fresh. cbn [snd].
  pose proof (puts_store_counters_ok cs [] counters_ok_nil) as Hc.
  set (s := puts_store cs []) in *.
  rewrite (Put_ok now key value version s Hc). cbn [fst snd].
  set (v := if version =? -1 then now else version).
  assert (Hc' : counters_ok (put_store key value v s))
    by now apply counters_ok_put_store.
  assert (Hmin : counter (min_key k) (put_store key value v s)
                 = counter (min_key k) s)
    by (apply (counter_put_other k); auto).
  assert (Hmax : counter (max_key k) (put_store key value v s)
                 = counter (max_key k) s)
    by (apply (counter_put_other k); auto).
  assert (Hcnt : counter (cnt_key k) (put_store key value v s)
                 = counter (cnt_key k) s)
    by (apply (counter_put_other k); auto).
  split; [reflexivity|]. split; [|split; [|split; [|split]]].
  - intros t. rewrite !Get_ok by assumption. cbn [fst]. rewrite Hmax.
    rewrite put_store_get_item_other; [reflexivity|reflexivity|].
    intros H. apply encodeKey_inj in H; [|assumption..].
    destruct H as [H _]. congruence.
  - rewrite !version_min_ok by assumption. cbn [fst]. now rewrite Hmin.
  - rewrite !version_max_ok by assumption. cbn [fst]. now rewrite Hmax.
  - rewrite !VersionCnt_ok by assumption. cbn [fst]. now rewrite Hcnt.
  - intros start end_ limit. apply Versions_range_agree.
    now apply range_put_store_other.
Qed.

Lemma X9_witness :
  let d := snd (run_puts s3_calls fresh) in
  let d' := snd (Put 0 z_ v1_ 9 d) in
  fst (Put 0 z_ v1_ 9 d) = Ok (mkKeyValue z_ v1_ 9) /\
  (forall t, fst (Get k_ t d') = fst (Get k_ t d)) /\
  fst (version_min k_ d') = fst (version_min k_ d) /\
  fst (version_max k_ d') = fst (version_max k_ d) /\
  fst (VersionCnt k_ d') = fst (VersionCnt k_ d) /\
  (forall start end_ limit,
     fst (Versions k_ start end_ limit d')
     = fst (Versions k_ start end_ limit d)).
Proof.
  apply (X9_Put_leaves_other_keys s3_calls 0 z_ v1_ 9 k_).
  - vm_compute. reflexivity.
  - vm_compute. reflexivity.
  - discriminate.
Defined.

(** ** The least and the greatest version *)

(** Along a run, [version_min] and [version_max] of a key are 0 until
    the key is written, and from then on versions that were put for it
    (their low 32 bits). *)
Lemma counters_are_put_versions (cs : list put_call) (k : bytes) :
  let s := puts_store cs [] in
  (~ written cs k /\ counter (min_key k) s = 0 /\ counter (max_key k) s = 0
   /\ counter (cnt_key k) s = 0) \/
  (written cs k /\ item_written cs k (counter (min_key k) s)
   /\ item_written cs k (counter (max_key k) s)).
Proof.
  induction cs as [|c cs IH] using rev_ind.
  - left. split; [intros [c [[] _]]|]. repeat split.
  - cbv zeta in *. rewrite puts_store_snoc. unfold put_call_store.
    set (s := puts_store cs []) in *.
    destruct (list_eq_dec byte_eq_dec (p_key c) k) as [Heq|Hne].
    + right. rewrite Heq. split; [apply written_snoc; auto|].
      rewrite put_store_min, put_store_max. cbv zeta.
      assert (Hnew : item_written (cs ++ [c]) k (uint32 (p_effective c)))
        by (apply item_written_snoc; auto).
      destruct IH as [[_ [Hmin [Hmax Hcnt]]]|[_ [Hmin Hmax]]].
      * rewrite Hmin, Hmax, Hcnt. cbn. auto.
      * split.
        -- destruct ((_ =? 0) || (_ >? p_effective c)); [exact Hnew|].
           apply item_written_snoc. auto.
        -- destruct ((_ =? 0) || (_ <? p_effective c)); [exact Hnew|].
           apply item_written_snoc. auto.
    + rewrite !(counter_put_other k) by auto.
      destruct IH as [[Hn H]|[Hw [Hmin Hmax]]].
      * left. split; [|exact H]. intros Hw. apply written_snoc in Hw.
        destruct Hw; [auto|contradiction].
      * right. split; [apply written_snoc; auto|].
        split; apply item_written_snoc; auto.
Qed.

(** X10: when every version put fits 32 bits (keys shorter than 2^32
    bytes), after any run of successful calls of [Put] on a fresh store
    [version_min] and [version_max] of a written key are the least and
    the greatest version put for it. *)
Theorem X10_min_max_are_extremes (cs : list put_call) (k : bytes) :
  (forall c, In c cs -> len (p_key c) < 2 ^ 32) -> len k < 2 ^ 32 ->
  (forall c, In c cs -> 0 <= p_effective c < 2 ^ 32) ->
  written cs k ->
  let d := snd (run_puts cs fresh) in
  exists mn mx,
    version_min k d = (Ok mn, d) /\ version_max k d = (Ok mx, d) /\
    item_written cs k mn /\ item_written cs k mx /\
    forall ver, item_written cs k ver -> mn <= ver <= mx.
Proof.
  intros Hcs Hk Hver Hw. rewrite run_puts_fresh. cbn [snd].
  pose proof (puts_store_counters_ok cs [] counters_ok_nil) as Hc.
  destruct (counters_bound_u32 cs k Hcs Hk Hver) as [HA _].
  destruct (counters_are_put_versions cs k) as [[Hn _]|[_ [Hmin Hmax]]];
    [contradiction|].
  exists (counter (min_key k) (puts_store cs [])),
    (counter (max_key k) (puts_store cs [])).
  split; [now apply version_min_ok|]. split; [now apply version_max_ok|].
  auto.
Qed.

Lemma X10_witness :
  let d := snd (run_puts s3_calls fresh) in
  exists mn mx,
    version_min k_ d = (Ok mn, d) /\ version_max k_ d = (Ok mx, d) /\
    item_written s3_calls k_ mn /\ item_written s3_calls k_ mx /\
    forall ver, item_written s3_calls k_ ver -> mn <= ver <= mx.
Proof.
  apply (X10_min_max_are_extremes s3_calls k_).
  - intros c Hc. simpl in Hc.
    destruct Hc as [<-|[<-|[<-|[]]]]; vm_compute; reflexivity.
  - vm_compute. reflexivity.
  - intros c Hc. simpl in Hc.
    destruct Hc as [<-|[<-|[<-|[]]]]; unfold p_effective; simpl; lia.
  - exists (mkPut 0 k_ v1_ 100). split; [simpl; auto|reflexivity].
Defined.

(** X11: when every version put fits 32 bits (keys shorter than 2^32
    bytes), [Get(k, -1)] of a written key returns the greatest version
    put for the key and the value of the last [Put] at that version. *)
Theorem X11_Get_latest_is_greatest (cs : list put_call) (k : bytes) :
  (forall c, In c cs -> len (p_key c) < 2 ^ 32) -> len k < 2 ^ 32 ->
  (forall c, In c cs -> 0 <= p_effective c < 2 ^ 32) ->
  written cs k ->
  let d := snd (run_puts cs fresh) in
  exists mx v,
    Get k (-1) d = (Ok (mkKeyValue k v mx), d) /\
    last_put cs k mx = Some v /\
    item_written cs k mx /\
    forall ver, item_written cs k ver -> ver <= mx.
Proof.
  intros Hcs Hk Hver Hw. rewrite run_puts_fresh. cbn [snd].
  pose proof (puts_store_counters_ok cs [] counters_ok_nil) as Hc.
  destruct (counters_bound_u32 cs k Hcs Hk Hver) as [HA _].
  destruct (counters_are_put_versions cs k) as [[Hn _]|[_ [_ Hmax]]];
    [contradiction|].
  set (s := puts_store cs []) in *.
  pose proof (item_written_stored cs k _ Hmax) as Hst. fold s in Hst.
  destruct (store_get (encodeKey k (counter (max_key k) s)) s) as [v|] eqn:E;
    [|contradiction].
  exists (counter (max_key k) s), v.
  split; [|split; [|split]].
  - rewrite Get_ok by assumption. change (-1 =? -1) with true. cbv iota.
    now rewrite E.
  - rewrite <- (stored_is_last_put cs k _ Hcs Hk). exact E.
  - exact Hmax.
  - intros ver Hv. now apply HA.
Qed.

Lemma X11_witness :
  let d := snd (run_puts s3_calls fresh) in
  exists mx v,
    Get k_ (-1) d = (Ok (mkKeyValue k_ v mx), d) /\
    last_put s3_calls k_ mx = Some v /\
    item_written s3_calls k_ mx /\
    forall ver, item_written s3_calls k_ ver -> ver <= mx.
Proof.
  apply (X11_Get_latest_is_greatest s3_calls k_).
  - intros c Hc. simpl in Hc.
    destruct Hc as [<-|[<-|[<-|[]]]]; vm_compute; reflexivity.
  - vm_compute. reflexivity.
  - intros c Hc. simpl in Hc.
    destruct Hc as [<-|[<-|[<-|[]]]]; unfold p_effective; simpl; lia.
  - exists (mkPut 0 k_ v1_ 100). split; [simpl; auto|reflexivity].
Defined.

(** ** Scans between two bounds *)

Section VersionsRange.

Variable cs : list put_call.
Variable k : bytes.
Variables start end_ : Z.
Hypothesis cs_len : forall c, In c cs -> len (p_key c) < 2 ^ 32.
Hypothesis k_len : len k < 2 ^ 32.

Let s := puts_store cs [].
Let lo := encodeKey k start.
Let hi := encodeKey k end_.

Lemma versions_range_entries (e : bytes * bytes) :
  In e (range lo hi s) ->
  exists ver, item_written cs k ver /\ fst e = encodeKey k ver /\
              uint32 start <= ver <= uint32 end_.
Proof.
  intros He. apply range_In in He; [|apply puts_store_sorted].
  destruct He as [Hin [Hlo Hhi]].
  pose proof (puts_store_raw_keys cs e Hin) as Hraw.
  assert (Hpre : exists s0, fst e = item_prefix k ++ s0).
  { unfold lo, hi in Hlo, Hhi. rewrite encodeKey_prefix in Hlo, Hhi.
    exact (sandwich_prefix _ _ _ _ Hlo Hhi). }
  destruct Hpre as [s0 Hpre].
  destruct Hraw as [k' [Hw [H|[H|[H|[H|[ver [Hi H]]]]]]]];
    try (rewrite H in Hpre; unfold item_prefix in Hpre; tag_mismatch).
  exists ver.
  assert (Hk' : len k' < 2 ^ 32).
  { destruct Hw as [c [Hc <-]]. auto. }
  rewrite H in Hlo, Hhi.
  pose proof (item_in_range k k' start end_ ver k_len Hk' Hlo Hhi) as Hkk.
  subst k'. split; [assumption|]. split; [assumption|].
  pose proof (item_written_range _ _ _ Hi) as Hr.
  unfold bytes_le, lo, hi in Hlo, Hhi. rewrite encodeKey_compare in Hlo, Hhi.
  rewrite (uint32_small ver) in Hlo, Hhi by assumption.
  split.
  - destruct (Z.compare_spec (uint32 start) ver); try lia. congruence.
  - destruct (Z.compare_spec ver (uint32 end_)); try lia. congruence.
Qed.

Lemma versions_range_has (ver : Z) (val : bytes) :
  uint32 start <= ver <= uint32 end_ ->
  In (encodeKey k ver, val) s -> In (encodeKey k ver, val) (range lo hi s).
Proof.
  intros Hv Hin. apply range_In; [apply puts_store_sorted|].
  split; [assumption|]. cbn [fst]. unfold bytes_le, lo, hi.
  rewrite !encodeKey_compare.
  pose proof (uint32_range start). pose proof (uint32_range end_).
  rewrite (uint32_small ver) by lia.
  split; intros H'; apply Z.compare_gt_iff in H'; lia.
Qed.

Lemma versions_range_decodes (e : bytes * bytes) :
  In e (range lo hi s) -> decodeKey (fst e) <> None.
Proof.
  intros He. destruct (versions_range_entries e He) as [ver [_ [-> _]]].
  rewrite decodeKey_encodeKey by assumption. discriminate.
Qed.

Lemma Versions_range_scan :
  Versions k start end_ 0 (mkDB s [])
  = (Ok (mkKeyValueVersions k (map row_of (range lo hi s))), mkDB s []).
Proof.
  unfold Versions. rewrite (bind_ok _ _ _ _ _ (kv_Seek_ok _ s)).
  unfold lift. fold lo hi.
  rewrite Versions_loop_unlimited; [reflexivity|].
  apply versions_range_decodes.
Qed.

Lemma versions_range_rows (kv : KeyValue) :
  In kv (map row_of (range lo hi s)) <->
  Key kv = [] /\ last_put cs k (Version kv) = Some (Value kv) /\
  uint32 start <= Version kv <= uint32 end_.
Proof.
  rewrite in_map_iff. split.
  - intros [e [<- He]].
    destruct (versions_range_entries e He) as [ver [Hi [Hk Hb]]].
    pose proof (item_written_range _ _ _ Hi) as Hv.
    unfold row_of. cbn [Key Value Version].
    rewrite (row_index_item k k_len e ver Hv Hk).
    split; [reflexivity|]. split; [|assumption].
    rewrite <- (stored_is_last_put cs k ver cs_len k_len).
    apply In_store_get; [apply puts_store_sorted|].
    apply range_In in He; [|apply puts_store_sorted].
    destruct He as [He _]. destruct e as [rk val]. cbn [fst snd] in *.
    now subst rk.
  - intros [Hk [Hg Hv]].
    pose proof (uint32_range start). pose proof (uint32_range end_).
    exists (encodeKey k (Version kv), Value kv). split.
    + unfold row_of. cbn [snd].
      rewrite (row_index_item k k_len (encodeKey k (Version kv), Value kv)
                 (Version kv)) by (try reflexivity; lia).
      destruct kv as [key val ver]. cbn in *. now subst key.
    + apply versions_range_has; [assumption|].
      apply store_get_In. fold s.
      now rewrite (stored_is_last_put cs k _ cs_len k_len).
Qed.

Lemma versions_range_sorted :
  StronglySorted Z.lt (map Version (map row_of (range lo hi s))).
Proof.
  rewrite map_map. apply (sorted_versions k k_len).
  - apply range_sorted, puts_store_sorted.
  - intros e He. destruct (versions_range_entries e He) as [ver [Hi [Hf _]]].
    exists ver. split; [eapply item_written_range; eauto|assumption].
Qed.

End VersionsRange.

(** X12: after any run of successful calls of [Put] on a fresh store
    (keys shorter than 2^32 bytes), [Versions(k, start, end, 0)] returns,
    strictly ascending by version and without the user key, exactly the
    versions of [k] between the low 32 bits of [start] and the low 32
    bits of [end], bounds included, each with the value last put at
    it. *)
Theorem X12_Versions_between (cs : list put_call) (k : bytes)
    (start end_ : Z) :
  (forall c, In c cs -> len (p_key c) < 2 ^ 32) -> len k < 2 ^ 32 ->
  let d := snd (run_puts cs fresh) in
  exists vs,
    Versions k start end_ 0 d = (Ok (mkKeyValueVersions k vs), d) /\
    StronglySorted Z.lt (map Version vs) /\
    forall kv, In kv vs <->
      Key kv = [] /\ last_put cs k (Version kv) = Some (Value kv) /\
      start mod 2 ^ 32 <= Version kv <= end_ mod 2 ^ 32.
Proof.
  intros Hcs Hk. rewrite run_puts_fresh. cbn [snd].
  exists (map row_of (range (encodeKey k start) (encodeKey k end_)
                        (puts_store cs []))).
  split; [now apply Versions_range_scan|].
  split; [now apply versions_range_sorted|].
  intros kv. now apply versions_range_rows.
Qed.

Lemma X12_witness :
  let d := snd (run_puts s3_calls fresh) in
  exists vs,
    Versions k_ 120 500 0 d = (Ok (mkKeyValueVersions k_ vs), d) /\
    StronglySorted Z.lt (map Version vs) /\
    forall kv, In kv vs <->
      Key kv = [] /\ last_put s3_calls k_ (Version kv) = Some (Value kv) /\
      120 mod 2 ^ 32 <= Version kv <= 500 mod 2 ^ 32.
Proof.
  apply (X12_Versions_between s3_calls k_ 120 500).
  - intros c Hc. simpl in Hc.
    destruct Hc as [<-|[<-|[<-|[]]]]; vm_compute; reflexivity.
  - vm_compute. reflexivity.
Defined.

Lemma store_seek_head (lo k1 v1 : bytes) (rest s : store) :
  store_seek lo s = (k1, v1) :: rest -> bytes_ltb k1 lo = false.
Proof.
  induction s as [|[k' v'] s IH]; simpl; [discriminate|].
  destruct (bytes_ltb k' lo) eqn:E; [exact IH|].
  intros [= <- _ _]. exact E.
Qed.

(** X13: [Versions(k, start, end, limit)] with the low 32 bits of
    [start] above those of [end] returns an empty list of versions, not
    an error, whatever the store holds and whatever the limit. *)
Theorem X13_Versions_start_above_end (s : store) (k : bytes)
    (start end_ limit : Z) :
  end_ mod 2 ^ 32 < start mod 2 ^ 32 ->
  Versions k start end_ limit (mkDB s [])
  = (Ok (mkKeyValueVersions k []), mkDB s []).
Proof.
  intros Hlt. unfold Versions. rewrite (bind_ok _ _ _ _ _ (kv_Seek_ok _ s)).
  unfold lift, bind, ret.
  destruct (store_seek (encodeKey k start) s) as [|[k1 v1] rest] eqn:E;
    [reflexivity|].
  apply store_seek_head in E.
  assert (Hgt : bytes_gtb k1 (encodeKey k end_) = true).
  { apply bytes_gtb_lt.
    assert (Hhl : bytes_lt (encodeKey k end_) (encodeKey k start)).
    { unfold bytes_lt. rewrite encodeKey_compare.
      now apply Z.compare_lt_iff. }
    unfold bytes_ltb in E.
    destruct (bytes_compare k1 (encodeKey k start)) eqn:Ec; [| discriminate |].
    - apply bytes_compare_eq in Ec. now subst k1.
    - apply bytes_compare_lt_gt in Ec. eapply bytes_lt_trans; eauto. }
  simpl. now rewrite Hgt.
Qed.

Lemma X13_witness :
  Versions k_ 200 100 0 (mkDB (puts_store s3_calls []) [])
  = (Ok (mkKeyValueVersions k_ []), mkDB (puts_store s3_calls []) []).
Proof.
  apply (X13_Versions_start_above_end (puts_store s3_calls []) k_ 200 100 0).
  vm_compute. reflexivity.
Defined.

Section KeysRange.

Variable cs : list put_call.
Variables start end_ : bytes.

Let s := puts_store cs [].
Let lo := encodeMeta KvKeyIndex start.
Let hi := encodeMeta KvKeyIndex end_.

Lemma keys_range_form (e : bytes * bytes) :
  In e (range lo hi s) -> exists k, fst e = KvKeyIndex :: k.
Proof.
  intros He. apply range_In in He; [|apply puts_store_sorted].
  destruct He as [_ [Hlo Hhi]].
  destruct (sandwich_prefix [KvKeyIndex] start end_ (fst e) Hlo Hhi)
    as [k Hk]. now exists k.
Qed.

Lemma keys_range_nonempty (e : bytes * bytes) :
  In e (range lo hi s) -> fst e <> [].
Proof. intros He. destruct (keys_range_form e He) as [k ->]. discriminate. Qed.

Lemma Keys_range_scan :
  Keys start end_ 0 (mkDB s [])
  = (Ok (map (fun e => tl (fst e)) (range lo hi s)), mkDB s []).
Proof.
  unfold Keys. rewrite (bind_ok _ _ _ _ _ (kv_Seek_ok _ s)).
  unfold lift. fold lo hi. rewrite Keys_loop_unlimited; [reflexivity|].
  apply keys_range_nonempty.
Qed.

Lemma keys_range_rows (k : bytes) :
  In k (map (fun e => tl (fst e)) (range lo hi s)) <->
  written cs k /\ bytes_le start k /\ bytes_le k end_.
Proof.
  rewrite in_map_iff. split.
  - intros [e [Hk He]]. destruct (keys_range_form e He) as [k' Hk'].
    apply range_In in He; [|apply puts_store_sorted].
    destruct He as [Hin [Hlo Hhi]].
    destruct e as [rk v]. cbn [fst] in Hk', Hk, Hlo, Hhi. subst rk.
    cbn [tl] in Hk. subst k'.
    split; [now apply (index_stored_written cs k v)|].
    unfold bytes_le, lo, hi, encodeMeta in *.
    now rewrite !bytes_compare_cons in *.
  - intros [Hw [Hlo Hhi]].
    exists (index_key k, []). split; [reflexivity|].
    apply range_In; [apply puts_store_sorted|]. split.
    + apply store_get_In. now apply index_written.
    + unfold bytes_le, lo, hi, index_key, encodeMeta in *. cbn [fst].
      now rewrite !bytes_compare_cons.
Qed.

Lemma keys_range_sorted :
  StronglySorted bytes_lt (map (fun e => tl (fst e)) (range lo hi s)).
Proof.
  apply (sorted_map_tl KvKeyIndex);
    [apply range_sorted, puts_store_sorted|exact keys_range_form].
Qed.

End KeysRange.

(** X14: after any run of successful calls of [Put] on a fresh store,
    [Keys(start, end, 0)] returns, in ascending byte order and each
    once, exactly the user keys ever written that lie between [start]
    and [end] in byte order, bounds included. *)
Theorem X14_Keys_between (cs : list put_call) (start end_ : bytes) :
  let d := snd (run_puts cs fresh) in
  exists ks,
    Keys start end_ 0 d = (Ok ks, d) /\
    StronglySorted bytes_lt ks /\
    forall k, In k ks <->
      written cs k /\ bytes_compare start k <> Gt /\
      bytes_compare k end_ <> Gt.
Proof.
  rewrite run_puts_fresh. cbn [snd].
  exists (map (fun e => tl (fst e))
            (range (encodeMeta KvKeyIndex start) (encodeMeta KvKeyIndex end_)
               (puts_store cs []))).
  split; [apply Keys_range_scan|]. split; [apply keys_range_sorted|].
  intros k. apply keys_range_rows.
Qed.

(** ** What a limit does *)

Lemma Keys_loop_limited (enum : store) (hi : bytes) (limit i : Z)
    (res : list bytes) :
  0 < limit -> i <= limit + 1 ->
  (forall e, In e (take_le hi enum) -> fst e <> []) ->
  Keys_loop enum hi limit i res
  = Ok (res ++ firstn (Z.to_nat (limit + 1 - i))
                 (map (fun e => tl (fst e)) (take_le hi enum))).
Proof.
  intros Hl. revert i res.
  induction enum as [|[k v] enum IH]; intros i res Hi Hne; simpl.
  - now rewrite firstn_nil, app_nil_r.
  - simpl in Hne. destruct (bytes_gtb k hi) eqn:E; simpl.
    + now rewrite firstn_nil, app_nil_r.
    + destruct (limit =? 0) eqn:E0; [apply Z.eqb_eq in E0; lia|]. simpl.
      destruct (i >? limit) eqn:Ei.
      * apply Z.gtb_lt in Ei.
        replace (Z.to_nat (limit + 1 - i)) with 0%nat by lia.
        simpl. now rewrite app_nil_r.
      * assert (Hle : i <= limit)
          by (rewrite Z.gtb_ltb in Ei; apply Z.ltb_ge in Ei; lia).
        destruct k as [|t k]; [now destruct (Hne ([], v)); simpl; auto|].
        rewrite IH; [|lia|intros e He; apply Hne; simpl; auto].
        replace (Z.to_nat (limit + 1 - i))
          with (S (Z.to_nat (limit + 1 - (i + 1)))) by lia.
        simpl. now rewrite <- app_assoc.
Qed.

Lemma Versions_loop_limited (enum : store) (hi : bytes) (limit i : Z)
    (res : list KeyValue) :
  0 < limit -> i <= limit + 1 ->
  (forall e, In e (take_le hi enum) -> decodeKey (fst e) <> None) ->
  Versions_loop enum hi limit i res
  = Ok (res ++ firstn (Z.to_nat (limit + 1 - i))
                 (map row_of (take_le hi enum))).
Proof.
  intros Hl. revert i res.
  induction enum as [|[k v] enum IH]; intros i res Hi Hd; simpl.
  - now rewrite firstn_nil, app_nil_r.
  - simpl in Hd. destruct (bytes_gtb k hi) eqn:E; simpl.
    + now rewrite firstn_nil, app_nil_r.
    + destruct (limit =? 0) eqn:E0; [apply Z.eqb_eq in E0; lia|]. simpl.
      destruct (i >? limit) eqn:Ei.
      * apply Z.gtb_lt in Ei.
        replace (Z.to_nat (limit + 1 - i)) with 0%nat by lia.
        simpl. now rewrite app_nil_r.
      * assert (Hle : i <= limit)
          by (rewrite Z.gtb_ltb in Ei; apply Z.ltb_ge in Ei; lia).
        assert (Hk : decodeKey k <> None)
          by (apply (Hd (k, v)); simpl; auto).
        unfold row_of at 1, row_index. cbn [fst snd].
        destruct (decodeKey k) as [[m index]|]; [|contradiction].
        rewrite IH; [|lia|intros e He; apply Hd; simpl; auto].
        replace (Z.to_nat (limit + 1 - i))
          with (S (Z.to_nat (limit + 1 - (i + 1)))) by lia.
        simpl. now rewrite <- app_assoc.
Qed.

(** X15: after any run of successful calls of [Put] on a fresh store,
    [Keys(start, end, n)] with a limit [n > 0] returns the first
    [n + 1] keys of what [Keys(start, end, 0)] returns (all of them
    when there are fewer). *)
Theorem X15_Keys_limit_prefix (cs : list put_call) (start end_ : bytes)
    (n : Z) :
  0 < n ->
  let d := snd (run_puts cs fresh) in
  exists ks,
    Keys start end_ 0 d = (Ok ks, d) /\
    Keys start end_ n d = (Ok (firstn (Z.to_nat (n + 1)) ks), d).
Proof.
  intros Hn. rewrite run_puts_fresh. cbn [snd].
  set (s := puts_store cs []).
  exists (map (fun e => tl (fst e))
            (range (encodeMeta KvKeyIndex start) (encodeMeta KvKeyIndex end_) s)).
  split; [apply Keys_range_scan|].
  unfold Keys. rewrite (bind_ok _ _ _ _ _ (kv_Seek_ok _ s)). unfold lift.
  rewrite Keys_loop_limited; [|lia|lia|apply keys_range_nonempty].
  rewrite Z.sub_0_r. reflexivity.
Qed.

Lemma X15_witness :
  let d := snd (run_puts s4_calls fresh) in
  exists ks,
    Keys [] [xff] 0 d = (Ok ks, d) /\
    Keys [] [xff] 2 d = (Ok (firstn (Z.to_nat (2 + 1)) ks), d).
Proof. apply (X15_Keys_limit_prefix s4_calls [] [xff] 2). lia. Defined.

(** X16: after any run of successful calls of [Put] on a fresh store
    (keys shorter than 2^32 bytes), [Versions(k, start, end, n)] with a
    limit [n > 0] returns the first [n + 1] rows of what
    [Versions(k, start, end, 0)] returns. *)
Theorem X16_Versions_limit_prefix (cs : list put_call) (k : bytes)
    (start end_ n : Z) :
  (forall c, In c cs -> len (p_key c) < 2 ^ 32) -> len k < 2 ^ 32 ->
  0 < n ->
  let d := snd (run_puts cs fresh) in
  exists vs,
    Versions k start end_ 0 d = (Ok (mkKeyValueVersions k vs), d) /\
    Versions k start end_ n d
    = (Ok (mkKeyValueVersions k (firstn (Z.to_nat (n + 1)) vs)), d).
Proof.
  intros Hcs Hk Hn. rewrite run_puts_fresh. cbn [snd].
  set (s := puts_store cs []).
  exists (map row_of (range (encodeKey k start) (encodeKey k end_) s)).
  split; [now apply Versions_range_scan|].
  unfold Versions. rewrite (bind_ok _ _ _ _ _ (kv_Seek_ok _ s)). unfold lift.
  rewrite Versions_loop_limited;
    [|lia|lia|now apply versions_range_decodes].
  rewrite Z.sub_0_r. reflexivity.
Qed.

Lemma X16_witness :
  let d := snd (run_puts s3_calls fresh) in
  exists vs,
    Versions k_ 0 maxInt 0 d = (Ok (mkKeyValueVersions k_ vs), d) /\
    Versions k_ 0 maxInt 1 d
    = (Ok (mkKeyValueVersions k_ (firstn (Z.to_nat (1 + 1)) vs)), d).
Proof.
  apply (X16_Versions_limit_prefix s3_calls k_ 0 maxInt 1).
  - intros c Hc. simpl in Hc.
    destruct Hc as [<-|[<-|[<-|[]]]]; vm_compute; reflexivity.
  - vm_compute. reflexivity.
  - lia.
Defined.

(** X17: with a negative limit [Keys] and [Versions] return nothing,
    whatever the store holds: the test [i > limit] holds before the
    first row. *)
Theorem X17_negative_limit_returns_nothing (s : store) (limit : Z) :
  limit < 0 ->
  (forall start end_,
     Keys start end_ limit (mkDB s []) = (Ok [], mkDB s [])) /\
  (forall k start end_,
     Versions k start end_ limit (mkDB s [])
     = (Ok (mkKeyValueVersions k []), mkDB s [])).
Proof.
  intros Hl.
  assert (Ht : forall b, b || (negb (limit =? 0) && (0 >? limit)) = true).
  { intros b. replace (limit =? 0) with false
      by (symmetry; apply Z.eqb_neq; lia).
    replace (0 >? limit) with true by (symmetry; apply Z.gtb_lt; lia).
    apply orb_true_r. }
  split.
  - intros start end_. unfold Keys.
    rewrite (bind_ok _ _ _ _ _ (kv_Seek_ok _ s)). unfold lift.
    destruct (store_seek _ s) as [|[k1 v1] rest]; [reflexivity|].
    simpl. now rewrite Ht.
  - intros k start end_. unfold Versions.
    rewrite (bind_ok _ _ _ _ _ (kv_Seek_ok _ s)). unfold lift, bind, ret.
    destruct (store_seek _ s) as [|[k1 v1] rest]; [reflexivity|].
    simpl. now rewrite Ht.
Qed.

Lemma X17_witness :
  Keys [] [xff] (-1) (mkDB (puts_store s4_calls []) [])
  = (Ok [], mkDB (puts_store s4_calls []) []).
Proof.
  apply (proj1 (X17_negative_limit_returns_nothing
                  (puts_store s4_calls []) (-1) ltac:(lia))).
Defined.

(** ** What the operations leave alone *)

Lemma read_only_bind {A B} (m : M A) (f : A -> M B) :
  read_only m -> (forall a, read_only (f a)) -> read_only (bind m f).
Proof.
  intros Hm Hf d. unfold bind. specialize (Hm d).
  destruct (m d) as [[a|e|] d1]; cbn [snd] in *; [|assumption..].
  now rewrite Hf.
Qed.

Lemma read_only_ret {A} (a : A) : read_only (ret a).
Proof. now intros d. Qed.

Lemma read_only_lift {A} (o : outcome A) : read_only (lift o).
Proof. now intros d. Qed.

Lemma read_only_kv_Get (k : bytes) : read_only (kv_Get k).
Proof.
  intros d. unfold kv_Get, next_fault.
  destruct d as [s [|[|] fs]]; reflexivity.
Qed.

Lemma read_only_kv_Seek (k : bytes) : read_only (kv_Seek k).
Proof.
  intros d. unfold kv_Seek, next_fault.
  destruct d as [s [|[|] fs]]; reflexivity.
Qed.

Lemma read_only_getUint32 (k : bytes) : read_only (getUint32 k).
Proof.
  apply read_only_bind; [apply read_only_kv_Get|].
  intros [data|]; [|apply read_only_ret].
  destruct (le_Uint32 data); [apply read_only_ret|now intros d].
Qed.

(** X18: the reading operations never write: whatever the store holds
    and whichever backend calls fail, [Get], [VersionCnt], [Versions]
    and [Keys] leave the content of the backend as it was. *)
Theorem X18_reads_never_write (d : DB) :
  (forall k v, db_store (snd (Get k v d)) = db_store d) /\
  (forall k, db_store (snd (VersionCnt k d)) = db_store d) /\
  (forall k start end_ limit,
     db_store (snd (Versions k start end_ limit d)) = db_store d) /\
  (forall start end_ limit,
     db_store (snd (Keys start end_ limit d)) = db_store d).
Proof.
  split; [|split; [|split]].
  - intros k v. revert d. unfold Get.
    apply read_only_bind.
    + destruct (v =? -1); [apply read_only_getUint32|apply read_only_ret].
    + intros ver. apply read_only_bind; [apply read_only_kv_Get|].
      intros val. apply read_only_ret.
  - intros k. apply read_only_getUint32.
  - intros k start end_ limit. revert d. unfold Versions.
    apply read_only_bind; [apply read_only_kv_Seek|].
    intros enum. apply read_only_bind; [apply read_only_lift|].
    intros vs. apply read_only_ret.
  - intros start end_ limit. revert d. unfold Keys.
    apply read_only_bind; [apply read_only_kv_Seek|].
    intros enum. apply read_only_lift.
Qed.






(** ** The key-existence entry *)

Lemma sorted_singleton (k : bytes) (l : list bytes) :
  StronglySorted bytes_lt l -> (forall x, In x l <-> x = k) -> l = [k].
Proof.
  intros Hs Hk. destruct l as [|a [|b l]].
  - exfalso. now apply (Hk k).
  - f_equal. apply Hk. simpl. auto.
  - exfalso. assert (Ha : a = k) by (apply Hk; simpl; auto).
    assert (Hb : b = k) by (apply Hk; simpl; auto). subst a b.
    inversion Hs as [|? ? _ Hall]; subst. inversion Hall as [|? ? Hlt _]; subst.
    unfold bytes_lt in Hlt. rewrite bytes_compare_refl in Hlt. discriminate.
Qed.

(** X20: after any run of successful calls of [Put] on a fresh store, a
    key whose version count is not zero has its key-existence entry, and
    [Keys(k, k, 0)] returns exactly that key. *)
Theorem X20_counted_key_is_listed (cs : list put_call) (k : bytes) (n : Z) :
  let d := snd (run_puts cs fresh) in
  VersionCnt k d = (Ok n, d) -> n <> 0 ->
  store_get (encodeMeta KvKeyIndex k) (db_store d) = Some [] /\
  Keys k k 0 d = (Ok [k], d).
Proof.
  rewrite run_puts_fresh. cbn [snd db_store].
  pose proof (puts_store_counters_ok cs [] counters_ok_nil) as Hc.
  rewrite VersionCnt_ok by assumption. intros [= Hn] Hnz.
  assert (Hw : written cs k).
  { destruct (counters_are_put_versions cs k) as [[_ [_ [_ H0]]]|[Hw _]];
      [congruence|exact Hw]. }
  split; [now apply index_written|].
  rewrite Keys_range_scan. f_equal. f_equal.
  apply sorted_singleton; [apply keys_range_sorted|].
  intros x. rewrite keys_range_rows. split.
  - intros [_ [Hlo Hhi]]. unfold bytes_le in *.
    rewrite (bytes_compare_antisym k x) in Hhi.
    destruct (bytes_compare k x) eqn:E; simpl in Hhi; try congruence.
    symmetry. now apply bytes_compare_eq.
  - intros ->. unfold bytes_le. rewrite bytes_compare_refl.
    repeat split; auto; discriminate.
Qed.

Lemma X20_witness :
  let d := snd (run_puts s3_calls fresh) in
  store_get (encodeMeta KvKeyIndex k_) (db_store d) = Some [] /\
  Keys k_ k_ 0 d = (Ok [k_], d).
Proof.
  apply (X20_counted_key_is_listed s3_calls k_ 3).
  - vm_compute. reflexivity.
  - discriminate.
Defined.

(** ** No panic *)

Lemma steady_bind {A B} (m : M A) (f : A -> M B) :
  steady m -> (forall a, steady (f a)) -> steady (bind m f).
Proof.
  intros Hm Hf d Hd. unfold bind. destruct (Hm d Hd) as [H1 H2].
  destruct (m d) as [[a|e|] d1]; cbn [fst snd] in *.
  - now apply Hf.
  - split; [assumption|discriminate].
  - contradiction.
Qed.

Lemma steady_ret {A} (a : A) : steady (ret a).
Proof. intros d Hd. split; [assumption|discriminate]. Qed.

Lemma steady_kv_Get (k : bytes) : steady (kv_Get k).
Proof.
  intros d Hd. rewrite read_only_kv_Get. split; [assumption|].
  unfold kv_Get, next_fault. destruct d as [s [|[|] fs]]; discriminate.
Qed.

Lemma steady_kv_Set (k v : bytes) :
  (counter_key k -> length v = 4%nat) -> steady (kv_Set k v).
Proof.
  intros Hv d [Hc Hs]. unfold kv_Set, next_fault.
  destruct d as [s [|[|] fs]]; cbn [fst snd db_store] in *;
    (split; [|discriminate]); split; auto;
    try (now apply counters_ok_set); now apply store_set_sorted.
Qed.

Lemma counter_read_steady (k : bytes) :
  counter_key k ->
  steady (data <- kv_Get k ;;
          match data with
          | None => ret 0
          | Some data =>
              match le_Uint32 data with
              | Some v => ret v
              | None => panic
              end
          end).
Proof.
  intros Hk d Hd. unfold bind.
  destruct (kv_Get k d) as [[data|e|] d1] eqn:E.
  - pose proof (read_only_kv_Get k d) as Hro. rewrite E in Hro.
    cbn [snd] in Hro.
    assert (Hg : data = store_get k (db_store d)).
    { unfold kv_Get, next_fault in E.
      destruct d as [s [|[|] fs]]; cbn in E |- *; congruence. }
    destruct data as [data|].
    + destruct Hd as [Hc Hs].
      destruct (le_Uint32_length4 data (Hc k data Hk (eq_sym Hg)))
        as [v [-> _]].
      unfold ret. cbn [fst snd]. rewrite Hro. split; [split; auto|discriminate].
    + unfold ret. cbn [fst snd]. rewrite Hro. split; [assumption|discriminate].
  - pose proof (read_only_kv_Get k d) as Hro. rewrite E in Hro.
    cbn [fst snd] in *. rewrite Hro. split; [assumption|discriminate].
  - exfalso. unfold kv_Get, next_fault in E.
    destruct d as [s [|[|] fs]]; cbn in E; discriminate.
Qed.

Lemma steady_getUint32 (k : bytes) : counter_key k -> steady (getUint32 k).
Proof. apply counter_read_steady. Qed.

Lemma steady_incrUint32 (k : bytes) (step : Z) :
  counter_key k -> steady (incrUint32 k step).
Proof.
  intros Hk d Hd. unfold incrUint32.
  pose proof (counter_read_steady k Hk d Hd) as Hr.
  unfold bind in *.
  destruct (kv_Get k d) as [[data|e|] d1] eqn:E; cbn [fst snd] in *.
  - destruct ((match data with
               | Some data0 => match le_Uint32 data0 with
                               | Some v => ret v
                               | None => panic
                               end
               | None => ret 0
               end) d1) as [[v|e|] d2]; cbn [fst snd] in *.
    + destruct Hr as [Hr _]. now apply steady_kv_Set.
    + split; [apply Hr|discriminate].
    + now destruct Hr.
  - split; [apply Hr|discriminate].
  - now destruct Hr.
Qed.

(** [Put] keeps the store sorted with 4-byte counters and does not
    panic, whichever backend calls fail. *)
Lemma steady_Put (now : Z) (key value : bytes) (version : Z) :
  steady (Put now key value version).
Proof.
  unfold Put. set (version' := if version =? -1 then now else version).
  assert (Kmin : counter_key (encodeMeta KvVersionMin key)) by (simpl; auto).
  assert (Kmax : counter_key (encodeMeta KvVersionMax key)) by (simpl; auto).
  assert (Kcnt : counter_key (encodeMeta Meta (encodeMeta KvVersionCnt key)))
    by (simpl; auto).
  apply steady_bind; [now apply steady_getUint32|]. intros cmin.
  apply steady_bind; [now apply steady_getUint32|]. intros cmax.
  apply steady_bind.
  { destruct ((cmin =? 0) && (cmax =? 0));
      [now apply steady_getUint32|apply steady_ret]. }
  intros llen. apply steady_bind.
  { destruct ((llen =? 0) || (cmin >? version'));
      [now apply steady_kv_Set|apply steady_ret]. }
  intros _. apply steady_bind.
  { destruct ((cmax =? 0) || (cmax <? version'));
      [now apply steady_kv_Set|apply steady_ret]. }
  intros _. apply steady_bind; [apply steady_kv_Get|]. intros cval.
  apply steady_bind.
  { destruct cval; [apply steady_ret|now apply steady_incrUint32]. }
  intros _. apply steady_bind.
  { apply steady_kv_Set. cbn.
    unfold KvItem, Meta, KvVersionMin, KvVersionMax. intuition discriminate. }
  intros _. apply steady_bind.
  { apply steady_kv_Set. cbn.
    unfold KvKeyIndex, Meta, KvVersionMin, KvVersionMax.
    intuition discriminate. }
  intros _. apply steady_ret.
Qed.

Lemma reach_store_ok (d : DB) : reach d -> store_ok (db_store d).
Proof.
  induction 1 as [fs|d now key value version _ IH|d fs _ IH].
  - split; [apply counters_ok_nil|constructor].
  - now apply steady_Put.
  - exact IH.
Qed.

Lemma slice_last4 (b : bytes) :
  4 <= len b ->
  exists b0 b1 b2 b3, slice b (len b - 4) (len b) = Some [b0; b1; b2; b3].
Proof.
  intros Hl. unfold slice.
  destruct ((0 <=? len b - 4) && (len b - 4 <=? len b) && (len b <=? len b))
    eqn:E.
  - assert (Hn : length (firstn (Z.to_nat (len b - (len b - 4)))
                           (skipn (Z.to_nat (len b - 4)) b)) = 4%nat).
    { rewrite length_firstn, length_skipn. unfold len in *. lia. }
    destruct (firstn _ _) as [|b0 [|b1 [|b2 [|b3 [|b4 t]]]]];
      try discriminate Hn.
    now exists b0, b1, b2, b3.
  - rewrite !andb_false_iff, !Z.leb_gt in E. lia.
Qed.

(** A raw key that starts as the items of [key] do is decoded without
    a panic. *)
Lemma decodeKey_item_prefix (key s0 : bytes) :
  len key < 2 ^ 32 -> decodeKey (item_prefix key ++ s0) <> None.
Proof.
  intros Hk. unfold decodeKey.
  assert (H1 : slice (item_prefix key ++ s0) 1 5
               = Some (le_PutUint32 (uint32 (len key)))).
  { apply (slice_app [KvItem] (le_PutUint32 (uint32 (len key))) (key ++ s0)). }
  rewrite H1.
  rewrite <- (app_nil_r (le_PutUint32 _)), le_Uint32_Put, uint32_idem.
  rewrite (uint32_small (len key)) by (pose proof (len_nonneg key); lia).
  destruct (slice_last4 (item_prefix key ++ s0)) as [b0 [b1 [b2 [b3 H2]]]].
  { rewrite len_app. pose proof (len_nonneg s0).
    unfold item_prefix, len in *. simpl length. lia. }
  rewrite H2, be_Uint32_value.
  assert (H3 : slice (item_prefix key ++ s0) 5 (5 + len key) = Some key).
  { unfold item_prefix. rewrite <- app_comm_cons, <- app_assoc.
    apply (slice_app (KvItem :: le_PutUint32 (uint32 (len key))) key s0). }
  rewrite H3. discriminate.
Qed.

Lemma Keys_loop_no_panic (enum : store) (hi : bytes) (limit i : Z)
    (res : list bytes) :
  (forall e, In e (take_le hi enum) -> fst e <> []) ->
  Keys_loop enum hi limit i res <> Panic.
Proof.
  revert i res. induction enum as [|[k v] enum IH]; intros i res Hne; simpl.
  - discriminate.
  - simpl in Hne. destruct (bytes_gtb k hi) eqn:E; simpl; [discriminate|].
    destruct (negb (limit =? 0) && (i >? limit)); [discriminate|].
    destruct k as [|t k]; [now destruct (Hne ([], v)); simpl; auto|].
    apply IH. intros e He. apply Hne. simpl. auto.
Qed.

Lemma Versions_loop_no_panic (enum : store) (hi : bytes) (limit i : Z)
    (res : list KeyValue) :
  (forall e, In e (take_le hi enum) -> decodeKey (fst e) <> None) ->
  Versions_loop enum hi limit i res <> Panic.
Proof.
  revert i res. induction enum as [|[k v] enum IH]; intros i res Hd; simpl.
  - discriminate.
  - simpl in Hd. destruct (bytes_gtb k hi) eqn:E; simpl; [discriminate|].
    destruct (negb (limit =? 0) && (i >? limit)); [discriminate|].
    assert (Hk : decodeKey k <> None) by (apply (Hd (k, v)); simpl; auto).
    destruct (decodeKey k) as [[m index]|]; [|contradiction].
    apply IH. intros e He. apply Hd. simpl. auto.
Qed.

Lemma Keys_no_panic (d : DB) (start end_ : bytes) (limit : Z) :
  sorted (db_store d) -> fst (Keys start end_ limit d) <> Panic.
Proof.
  intros Hs. unfold Keys, bind, lift, kv_Seek, next_fault.
  destruct d as [s [|[|] fs]]; cbn [fst snd db_store db_faults] in *;
    try discriminate;
    apply Keys_loop_no_panic; intros e He;
    apply (range_In _ _ s e Hs) in He; destruct He as [_ [Hlo _]];
    intros Hnil; rewrite Hnil in Hlo; now apply Hlo.
Qed.

Lemma Versions_no_panic (d : DB) (k : bytes) (start end_ limit : Z) :
  sorted (db_store d) -> len k < 2 ^ 32 ->
  fst (Versions k start end_ limit d) <> Panic.
Proof.
  intros Hs Hk. unfold Versions, bind, lift, ret, kv_Seek, next_fault.
  assert (Hd : forall s, sorted s ->
             Versions_loop (store_seek (encodeKey k start) s)
               (encodeKey k end_) limit 0 [] <> Panic).
  { intros s Hss. apply Versions_loop_no_panic. intros e He.
    apply (range_In _ _ s e Hss) in He. destruct He as [_ [Hlo Hhi]].
    rewrite encodeKey_prefix in Hlo, Hhi.
    destruct (sandwich_prefix _ _ _ _ Hlo Hhi) as [s0 ->].
    now apply decodeKey_item_prefix. }
  destruct d as [s [|[|] fs]]; cbn [fst snd db_store db_faults] in *;
    try discriminate;
    specialize (Hd s Hs);
    destruct (Versions_loop _ _ _ _ _); cbn; congruence.
Qed.

Lemma Get_no_panic (d : DB) (k : bytes) (v : Z) :
  store_ok (db_store d) -> fst (Get k v d) <> Panic.
Proof.
  intros Hd. revert d Hd.
  assert (H : steady (Get k v)); [|intros d Hd; now apply H].
  unfold Get. apply steady_bind.
  - destruct (v =? -1); [|apply steady_ret].
    apply steady_getUint32. simpl. auto.
  - intros ver. apply steady_bind; [apply steady_kv_Get|].
    intros val. apply steady_ret.
Qed.

(** X21: from an empty backend, whatever calls of [Put] are made and
    whichever backend calls fail on the way, no operation panics: not
    [Put], [Get], [VersionCnt] or [Keys] with any arguments, and not
    [Versions] for a key shorter than 2^32 bytes. *)
Theorem X21_no_panic (d : DB) :
  reach d ->
  (forall now key value version,
     fst (Put now key value version d) <> Panic) /\
  (forall k v, fst (Get k v d) <> Panic) /\
  (forall k, fst (VersionCnt k d) <> Panic) /\
  (forall start end_ limit, fst (Keys start end_ limit d) <> Panic) /\
  (forall k start end_ limit,
     len k < 2 ^ 32 -> fst (Versions k start end_ limit d) <> Panic).
Proof.
  intros Hr. pose proof (reach_store_ok d Hr) as Hd.
  split; [|split; [|split; [|split]]].
  - intros now key value version. now apply steady_Put.
  - intros k v. now apply Get_no_panic.
  - intros k. apply steady_getUint32; [simpl; auto|assumption].
  - intros start end_ limit. apply Keys_no_panic. apply Hd.
  - intros k start end_ limit Hk. apply Versions_no_panic; [apply Hd|exact Hk].
Qed.

Lemma X21_witness :
  fst (Put 0 k_ v2_ 2 (snd (Put 0 k_ v1_ 1 index_write_fails))) <> Panic /\
  fst (Versions k_ 0 maxInt 0 (snd (Put 0 k_ v1_ 1 index_write_fails)))
  <> Panic.
Proof.
  assert (Hr : reach (snd (Put 0 k_ v1_ 1 index_write_fails)))
    by (apply reach_Put, reach_empty).
  split.
  - apply (proj1 (X21_no_panic _ Hr)).
  - apply (proj2 (proj2 (proj2 (proj2 (X21_no_panic _ Hr))))).
    vm_compute. reflexivity.
Defined.

(** ** The version count *)

Lemma sorted_lt_NoDup (l : list Z) : StronglySorted Z.lt l -> NoDup l.
Proof.
  induction 1 as [|a l Hs IH Hall]; constructor; [|assumption].
  intros Hin. rewrite Forall_forall in Hall. specialize (Hall a Hin). lia.
Qed.

(** X22: when every version put fits 32 bits (keys shorter than 2^32
    bytes), after any run of successful calls of [Put] on a fresh store
    [VersionCnt(k)] is the number of distinct versions put for [k],
    modulo 2^32: the number of rows of [Versions(k, 0, maxInt, 0)],
    whose versions are without repeats and exactly the versions put. *)
Theorem X22_VersionCnt_counts_versions (cs : list put_call) (k : bytes) :
  (forall c, In c cs -> len (p_key c) < 2 ^ 32) -> len k < 2 ^ 32 ->
  (forall c, In c cs -> 0 <= p_effective c < 2 ^ 32) ->
  let d := snd (run_puts cs fresh) in
  exists n vs,
    VersionCnt k d = (Ok n, d) /\
    Versions k 0 maxInt 0 d = (Ok (mkKeyValueVersions k vs), d) /\
    NoDup (map Version vs) /\
    (forall ver, In ver (map Version vs) <-> item_written cs k ver) /\
    n = len_rows vs mod 2 ^ 32.
Proof.
  intros Hcs Hk Hver. rewrite run_puts_fresh. cbn [snd].
  pose proof (puts_store_counters_ok cs [] counters_ok_nil) as Hc.
  destruct (counters_bound_u32 cs k Hcs Hk Hver) as [_ HB].
  set (s := puts_store cs []) in *.
  set (l := range (encodeKey k 0) (encodeKey k maxInt) s).
  assert (Hl : forall e, In e l ->
             exists ver, 0 <= ver < 2 ^ 32 /\ fst e = encodeKey k ver).
  { intros e He. destruct (item_range_entries cs k Hcs Hk e He) as [v [Hi Hf]].
    exists v. split; [eapply item_written_range; eauto|assumption]. }
  exists (counter (cnt_key k) s), (map row_of l).
  split; [now apply VersionCnt_ok|].
  split; [now apply Versions_full_scan|].
  split; [|split].
  - rewrite map_map. apply sorted_lt_NoDup.
    apply (sorted_versions k Hk); [apply range_sorted, puts_store_sorted|].
    exact Hl.
  - intros ver. rewrite map_map, in_map_iff. split.
    + intros [e [<- He]].
      destruct (item_range_entries cs k Hcs Hk e He) as [v [Hi Hf]].
      cbn [Version row_of].
      rewrite (row_index_item k Hk e v); [assumption| |assumption].
      eapply item_written_range; eauto.
    + intros Hi. pose proof (item_written_stored cs k ver Hi) as Hst.
      fold s in Hst.
      destruct (store_get (encodeKey k ver) s) as [val|] eqn:E;
        [|contradiction].
      pose proof (item_written_range _ _ _ Hi) as Hr.
      exists (encodeKey k ver, val). split.
      * cbn [Version row_of]. now apply (row_index_item k Hk).
      * apply (item_in_full_range cs k ver val Hr). now apply store_get_In.
  - rewrite HB. unfold item_count, len_rows. fold s l.
    now rewrite length_map.
Qed.

Lemma X22_witness :
  let d := snd (run_puts s3_calls fresh) in
  exists n vs,
    VersionCnt k_ d = (Ok n, d) /\
    Versions k_ 0 maxInt 0 d = (Ok (mkKeyValueVersions k_ vs), d) /\
    NoDup (map Version vs) /\
    (forall ver, In ver (map Version vs) <-> item_written s3_calls k_ ver) /\
    n = len_rows vs mod 2 ^ 32.
Proof.
  apply (X22_VersionCnt_counts_versions s3_calls k_).
  - intros c Hc. simpl in Hc.
    destruct Hc as [<-|[<-|[<-|[]]]]; vm_compute; reflexivity.
  - vm_compute. reflexivity.
  - intros c Hc. simpl in Hc.
    destruct Hc as [<-|[<-|[<-|[]]]]; unfold p_effective; simpl; lia.
Defined.
